(** * L-system visualizer: rule parser, grammar expander, turtle interpreter
      and batch animation scheduler.

    A shallow embedding of the L-system core of the visualizer script
    ([parseRules], [expand], [interpret], [drawSegmentsAnimated],
    [stopDrawingAnimation]) together with the properties its specification
    states about them.

    Conventions.
    - A JavaScript string is the list of its UTF-16 code units ([list N]).
      [String.prototype.length], [indexOf], [slice], [startsWith], [split]
      and [trim] work on code units; the string iterator used by
      [for (const ch of s)] groups surrogate pairs into one symbol.
    - A [Map] with string keys is a [gmap (list N) (list N)].
    - A JavaScript number is an element of an arbitrary carrier equipped
      with the operations the script uses; no law of arithmetic is assumed,
      so every statement holds for IEEE-754 doubles in particular.
    - A [throw] is the [Throw] constructor of [completion]. *)

From Stdlib Require Import ZArith NArith List Bool Lia Ascii String.
From stdpp Require Import base option list gmap strings.
Import ListNotations.

Set Default Proof Using "Type".

(** ** JavaScript strings *)

Module JsString.

(** A string value: the sequence of its UTF-16 code units. *)
Abbreviation jsstring := (list N) (only parsing).

(** Literals of the script, all ASCII: one code unit per character. *)
Definition str (s : string) : jsstring :=
  map N_of_ascii (list_ascii_of_string s).

Definition is_high_surrogate (c : N) : bool :=
  ((0xD800 <=? c) && (c <=? 0xDBFF))%N.

Definition is_low_surrogate (c : N) : bool :=
  ((0xDC00 <=? c) && (c <=? 0xDFFF))%N.

Definition is_surrogate (c : N) : bool :=
  ((0xD800 <=? c) && (c <=? 0xDFFF))%N.

(** The string iterator behind [for (const ch of s)]: one symbol per
    code point.  A high surrogate immediately followed by a low surrogate
    forms one two-unit symbol; every other code unit (a lone surrogate
    included) is a symbol by itself. *)
Fixpoint symbols (s : jsstring) : list jsstring :=
  match s with
  | [] => []
  | c :: rest =>
      match rest with
      | d :: rest' =>
          if is_high_surrogate c && is_low_surrogate d
          then [c; d] :: symbols rest'
          else [c] :: symbols rest
      | [] => [[c]]
      end
  end.

(** WhiteSpace and LineTerminator code points, the ones
    [String.prototype.trim] strips. *)
Definition is_trimmable (c : N) : bool :=
  ((c =? 0x0009) || (c =? 0x000A) || (c =? 0x000B) || (c =? 0x000C) ||
   (c =? 0x000D) || (c =? 0x0020) || (c =? 0x00A0) || (c =? 0x1680) ||
   ((0x2000 <=? c) && (c <=? 0x200A)) ||
   (c =? 0x2028) || (c =? 0x2029) || (c =? 0x202F) || (c =? 0x205F) ||
   (c =? 0x3000) || (c =? 0xFEFF))%N.

Fixpoint trimStart (s : jsstring) : jsstring :=
  match s with
  | c :: rest => if is_trimmable c then trimStart rest else s
  | [] => []
  end.

Definition trimEnd (s : jsstring) : jsstring := rev (trimStart (rev s)).

Definition trim (s : jsstring) : jsstring := trimEnd (trimStart s).

(** [s.split(sep)] for a one-unit separator: never returns an empty
    array; the pieces do not contain the separator. *)
Fixpoint split (sep : N) (s : jsstring) : list jsstring :=
  match s with
  | [] => [[]]
  | c :: rest =>
      if (c =? sep)%N then [] :: split sep rest
      else match split sep rest with
           | piece :: pieces => (c :: piece) :: pieces
           | [] => [[c]]
           end
  end.

(** [s.indexOf(c)] for a one-unit search string, scanning from [from]:
    the index of the first occurrence, or -1. *)
Fixpoint indexOf_from (from : Z) (c : N) (s : jsstring) : Z :=
  match s with
  | [] => (-1)%Z
  | d :: rest => if (d =? c)%N then from else indexOf_from (from + 1)%Z c rest
  end.

Definition indexOf (s : jsstring) (c : N) : Z := indexOf_from 0 c s.

(** [s.startsWith(c)] for a one-unit search string. *)
Definition startsWith (s : jsstring) (c : N) : bool :=
  match s with
  | d :: _ => (d =? c)%N
  | [] => false
  end.

(** Relative index resolution of [slice]: negative counts from the end,
    the result is clamped to [0, len]. *)
Definition resolve_index (len k : Z) : Z :=
  if (k <? 0)%Z then Z.max (len + k) 0 else Z.min k len.

(** [s.slice(start, stop)]. *)
Definition slice (s : jsstring) (start stop : Z) : jsstring :=
  let len := Z.of_nat (length s) in
  let from := resolve_index len start in
  let to := resolve_index len stop in
  firstn (Z.to_nat (Z.max (to - from) 0)) (skipn (Z.to_nat from) s).

(** [s.slice(start)]: up to the end of the string. *)
Definition slice_from (s : jsstring) (start : Z) : jsstring :=
  slice s start (Z.of_nat (length s)).

(** Truthiness of a string, as tested by [filter(Boolean)]. *)
Definition truthy (s : jsstring) : bool :=
  match s with [] => false | _ :: _ => true end.

End JsString.

Import JsString.

(** The code units the script names. *)
Definition LF : N := 0x0A.
Definition HASH : N := 0x23.
Definition EQUALS : N := 0x3D.

(** ** Grammar expander *)

Module Expander.

(** The body of the inner loop: [out += (rules.get(ch) ?? ch)]. *)
Definition append_replacement (rules : gmap (list N) (list N))
    (out ch : list N) : list N :=
  out ++ match rules !! ch with Some r => r | None => ch end.

(** One pass of the inner loop, starting from [out = ""]. *)
Definition rewrite_pass (rules : gmap (list N) (list N)) (s : list N) : list N :=
  fold_left (append_replacement rules) (symbols s) [].

(** The outer loop [for (let i = 0; i < iterations; i++)], from counter
    value [i] and current string [s]. *)
Fixpoint expand_loop (fuel : nat) (rules : gmap (list N) (list N))
    (iterations i : Z) (s : list N) : list N :=
  match fuel with
  | O => s
  | S fuel' =>
      if (i <? iterations)%Z
      then expand_loop fuel' rules iterations (i + 1)%Z (rewrite_pass rules s)
      else s
  end.

(** [expand(axiom, rules, iterations)].  The loop runs at most
    [iterations] times, which is the fuel given. *)
Definition expand (axiom : list N) (rules : gmap (list N) (list N))
    (iterations : Z) : list N :=
  expand_loop (Z.to_nat iterations) rules iterations 0 axiom.

(** *** The rewriting the specification describes *)

(** The rule-table mapping of a symbol, or the symbol itself. *)
Definition replacement_of (rules : gmap (list N) (list N)) (ch : list N) : list N :=
  default ch (rules !! ch).

(** One rewrite: every symbol replaced, replacements concatenated in the
    original symbol order. *)
Definition rewrite_once (rules : gmap (list N) (list N)) (s : list N) : list N :=
  concat (map (replacement_of rules) (symbols s)).

(** [n] successive rewrites. *)
Definition rewrite_n (rules : gmap (list N) (list N)) (n : nat) (s : list N) : list N :=
  Nat.iter n (rewrite_once rules) s.

End Expander.

Import Expander.

(** ** Rule table parser *)

(** The two [Error] values [parseRules] throws, with the text interpolated
    into the message. *)
Inductive error : Type :=
| BadRuleLine (line : list N)  (* Bad rule line (expected X=...): "line" *)
| BadRuleLhs (lhs : list N).   (* Rule LHS must be single character: "lhs" *)

(** How a call completes: it returns a value or throws. *)
Inductive completion (A : Type) : Type :=
| Return (a : A)
| Throw (e : error).

Arguments Return {A} a.
Arguments Throw {A} e.

Module Parser.

(** [text.split("\n").map(s => s.trim()).filter(Boolean)]. *)
Definition text_lines (text : list N) : list (list N) :=
  List.filter truthy (map trim (split LF text)).

(** [line.slice(0, eq).trim()]. *)
Definition lhs_at (line : list N) (eq : Z) : list N := trim (slice line 0 eq).

(** [line.slice(eq + 1).trim()]. *)
Definition rhs_at (line : list N) (eq : Z) : list N :=
  trim (slice_from line (eq + 1)%Z).

(** The [for (const line of lines)] loop, [rules] being the map built so
    far. *)
Fixpoint parse_lines (lines : list (list N)) (rules : gmap (list N) (list N))
    : completion (gmap (list N) (list N)) :=
  match lines with
  | [] => Return rules
  | line :: rest =>
      if startsWith line HASH then parse_lines rest rules
      else
        let eq := indexOf line EQUALS in
        if (eq =? -1)%Z then Throw (BadRuleLine line)
        else
          let lhs := lhs_at line eq in
          let rhs := rhs_at line eq in
          if negb (length lhs =? 1)%nat then Throw (BadRuleLhs lhs)
          else parse_lines rest (<[lhs := rhs]> rules)
  end.

(** [parseRules(text)]. *)
Definition parseRules (text : list N) : completion (gmap (list N) (list N)) :=
  parse_lines (text_lines text) ∅.

(** *** The vocabulary of the specification *)

(** The lines that carry a rule: trimmed, neither blank nor starting with
    [#]. *)
Definition is_rule_line (line : list N) : bool :=
  truthy line && negb (startsWith line HASH).

Definition rule_lines (text : list N) : list (list N) :=
  List.filter is_rule_line (map trim (split LF text)).

(** A line contains the separator. *)
Definition has_separator (line : list N) : bool := existsb (N.eqb EQUALS) line.

Fixpoint before_separator (line : list N) : list N :=
  match line with
  | [] => []
  | c :: rest => if (c =? EQUALS)%N then [] else c :: before_separator rest
  end.

Fixpoint after_separator (line : list N) : list N :=
  match line with
  | [] => []
  | c :: rest => if (c =? EQUALS)%N then rest else after_separator rest
  end.

(** Left- and right-hand side of a rule line: what stands before and
    after its first separator, trimmed. *)
Definition lhs_of (line : list N) : list N := trim (before_separator line).
Definition rhs_of (line : list N) : list N := trim (after_separator line).

(** A malformed line: no separator, or a left-hand side that is not
    exactly one character. *)
Definition malformed (line : list N) : bool :=
  negb (has_separator line) || negb (length (lhs_of line) =? 1)%nat.

(** The error a malformed line is rejected with. *)
Definition error_of (line : list N) : error :=
  if has_separator line then BadRuleLhs (lhs_of line) else BadRuleLine line.

(** The replacement the last line with left-hand side [k] gives, if
    there is such a line. *)
Fixpoint last_rule_for (k : list N) (lines : list (list N)) : option (list N) :=
  match lines with
  | [] => None
  | line :: rest =>
      match last_rule_for k rest with
      | Some v => Some v
      | None => if bool_decide (lhs_of line = k) then Some (rhs_of line) else None
      end
  end.

End Parser.

Import Parser.

(** ** Numbers *)

(** The operations on numbers the script uses.  The carrier stands for
    the IEEE-754 doubles of JavaScript; nothing is assumed about the
    operations. *)
Class JsNumber (num : Type) : Type := {
  lit : Z -> num;          (* an integer literal *)
  PI : num;                (* Math.PI *)
  add : num -> num -> num;
  sub : num -> num -> num;
  mul : num -> num -> num;
  div : num -> num -> num;
  neg : num -> num;        (* unary minus *)
  cos : num -> num;        (* Math.cos *)
  sin : num -> num         (* Math.sin *)
}.

(** The expressions the script evaluates, uninterpreted: the instance in
    which two numbers are equal only if they were computed the same way. *)
Inductive term : Type :=
| TLit (z : Z)
| TPi
| TAdd (a b : term)
| TSub (a b : term)
| TMul (a b : term)
| TDiv (a b : term)
| TNeg (a : term)
| TCos (a : term)
| TSin (a : term).

#[export] Instance term_number : JsNumber term := {
  lit := TLit; PI := TPi; add := TAdd; sub := TSub; mul := TMul;
  div := TDiv; neg := TNeg; cos := TCos; sin := TSin
}.

(** ** Turtle interpreter *)

(** A segment [{ x1, y1, x2, y2 }]. *)
Record segment (num : Type) : Type := Segment {
  x1 : num; y1 : num; x2 : num; y2 : num
}.
Arguments Segment {num} x1 y1 x2 y2.
Arguments x1 {num} _.
Arguments y1 {num} _.
Arguments x2 {num} _.
Arguments y2 {num} _.

(** A saved state [{ x, y, theta }], as pushed on the stack. *)
Record saved (num : Type) : Type := Saved {
  saved_x : num; saved_y : num; saved_theta : num
}.
Arguments Saved {num} saved_x saved_y saved_theta.
Arguments saved_x {num} _.
Arguments saved_y {num} _.
Arguments saved_theta {num} _.

(** The [options] argument of [interpret]; an absent property is [None]. *)
Record turtle_options (num : Type) : Type := TurtleOptions {
  step : option num; angleDeg : option num
}.
Arguments TurtleOptions {num} step angleDeg.
Arguments step {num} _.
Arguments angleDeg {num} _.

(** [Array.prototype.pop]: the last element and the shortened array, or
    [undefined] and the array unchanged when it is empty. *)
Definition array_pop {A : Type} (a : list A) : option A * list A :=
  match rev a with
  | [] => (None, a)
  | v :: r => (Some v, rev r)
  end.

Module Turtle.

Section Interpreter.

Context {num : Type} `{JsNumber num}.

(** [ch === "..."] against a one-character literal of the script. *)
Definition is_sym (ch : list N) (c : string) : bool := bool_decide (ch = str c).

(** The [for (const ch of lsys)] loop, over the symbols still to read,
    with the local variables [x], [y], [theta], [stack] and [segments]. *)
Fixpoint interpret_loop (stepLen angleRad : num) (syms : list (list N))
    (x y theta : num) (stack : list (saved num)) (segments : list (segment num))
    : list (segment num) :=
  match syms with
  | [] => segments
  | ch :: rest =>
      if is_sym ch "A" || is_sym ch "B" || is_sym ch "F" then
        let nx := add x (mul stepLen (cos theta)) in
        let ny := add y (mul stepLen (sin theta)) in
        interpret_loop stepLen angleRad rest nx ny theta stack
          (segments ++ [Segment x y nx ny])
      else if is_sym ch "+" then
        interpret_loop stepLen angleRad rest x y (add theta angleRad) stack segments
      else if is_sym ch "-" then
        interpret_loop stepLen angleRad rest x y (sub theta angleRad) stack segments
      else if is_sym ch "[" then
        interpret_loop stepLen angleRad rest x y theta
          (stack ++ [Saved x y theta]) segments
      else if is_sym ch "]" then
        match array_pop stack with
        | (Some state, stack') =>
            interpret_loop stepLen angleRad rest
              (saved_x state) (saved_y state) (saved_theta state) stack' segments
        | (None, stack') =>
            interpret_loop stepLen angleRad rest x y theta stack' segments
        end
      else interpret_loop stepLen angleRad rest x y theta stack segments
  end.

(** [angleDeg * Math.PI / 180]. *)
Definition to_radians (deg : num) : num := div (mul deg PI) (lit 180).

(** [-Math.PI / 2]: pointing up. *)
Definition initial_heading : num := div (neg PI) (lit 2).

(** [interpret(lsys, options)], with the defaults [step = 10] and
    [angleDeg = 25] of the destructuring. *)
Definition interpret (lsys : list N) (options : turtle_options num)
    : list (segment num) :=
  let stepLen := default (lit 10) (step options) in
  let angle := default (lit 25) (angleDeg options) in
  let angleRad := to_radians angle in
  interpret_loop stepLen angleRad (symbols lsys)
    (lit 0) (lit 0) initial_heading [] [].

(** *** The state machine of the specification *)

(** Position, heading and the stack of saved states, most recent first. *)
Record turtle : Type := Turtle {
  pos_x : num; pos_y : num; heading : num; saves : list (saved num)
}.

Definition initial_turtle : turtle :=
  Turtle (lit 0) (lit 0) initial_heading [].

(** The drawing symbols. *)
Definition drawing (ch : list N) : Prop :=
  ch = str "A" \/ ch = str "B" \/ ch = str "F".

(** The symbols with a meaning: drawing, turn and bracket symbols. *)
Definition meaningful (ch : list N) : Prop :=
  drawing ch \/ ch = str "+" \/ ch = str "-" \/ ch = str "[" \/ ch = str "]".

(** Where a turtle gets by moving forward by [stepLen]. *)
Definition forward (stepLen : num) (t : turtle) : turtle :=
  Turtle (add (pos_x t) (mul stepLen (cos (heading t))))
         (add (pos_y t) (mul stepLen (sin (heading t))))
         (heading t) (saves t).

(** The segment between the positions of two turtles. *)
Definition segment_between (t t' : turtle) : segment num :=
  Segment (pos_x t) (pos_y t) (pos_x t') (pos_y t').

(** [turtle_pass stepLen angle syms t segs]: reading the symbols [syms]
    from left to right, a turtle in state [t] emits the segments [segs]. *)
Inductive turtle_pass (stepLen angle : num)
    : list (list N) -> turtle -> list (segment num) -> Prop :=
| pass_end t :
    turtle_pass stepLen angle [] t []
| pass_draw ch rest t segs :
    drawing ch ->
    turtle_pass stepLen angle rest (forward stepLen t) segs ->
    turtle_pass stepLen angle (ch :: rest) t
      (segment_between t (forward stepLen t) :: segs)
| pass_plus rest t segs :
    turtle_pass stepLen angle rest
      (Turtle (pos_x t) (pos_y t) (add (heading t) angle) (saves t)) segs ->
    turtle_pass stepLen angle (str "+" :: rest) t segs
| pass_minus rest t segs :
    turtle_pass stepLen angle rest
      (Turtle (pos_x t) (pos_y t) (sub (heading t) angle) (saves t)) segs ->
    turtle_pass stepLen angle (str "-" :: rest) t segs
| pass_push rest t segs :
    turtle_pass stepLen angle rest
      (Turtle (pos_x t) (pos_y t) (heading t)
         (Saved (pos_x t) (pos_y t) (heading t) :: saves t)) segs ->
    turtle_pass stepLen angle (str "[" :: rest) t segs
| pass_pop rest t s below segs :
    saves t = s :: below ->
    turtle_pass stepLen angle rest
      (Turtle (saved_x s) (saved_y s) (saved_theta s) below) segs ->
    turtle_pass stepLen angle (str "]" :: rest) t segs
| pass_pop_empty rest t segs :
    saves t = [] ->
    turtle_pass stepLen angle rest t segs ->
    turtle_pass stepLen angle (str "]" :: rest) t segs
| pass_other ch rest t segs :
    ~ meaningful ch ->
    turtle_pass stepLen angle rest t segs ->
    turtle_pass stepLen angle (ch :: rest) t segs.

End Interpreter.

(** The test of the first branch of the loop of [interpret]. *)
Definition draws (ch : list N) : bool :=
  is_sym ch "A" || is_sym ch "B" || is_sym ch "F".

(** The code units that draw: [A], [B] and [F]. *)
Definition is_drawing_unit (c : N) : bool :=
  ((c =? 0x41) || (c =? 0x42) || (c =? 0x46))%N.

End Turtle.

Import Turtle.

(** ** Batch animation scheduler *)

(** The calls made on the 2D context.  [ClearSurface] stands for the
    [clearRect]/[fillStyle]/[fillRect] preamble and [SetPen] for the
    [strokeStyle]/[lineWidth]/[translate] one. *)
Inductive canvas_op (num : Type) : Type :=
| ClearSurface
| Save
| SetPen
| Restore
| BeginPath
| MoveTo (x y : num)
| LineTo (x y : num)
| Stroke.
Arguments ClearSurface {num}.
Arguments Save {num}.
Arguments SetPen {num}.
Arguments Restore {num}.
Arguments BeginPath {num}.
Arguments MoveTo {num} x y.
Arguments LineTo {num} x y.
Arguments Stroke {num}.

(** The [options] argument of [drawSegmentsAnimated]; an absent property
    is [None]. *)
Record anim_options : Type := AnimOptions {
  opt_batch : option Z; opt_delayMs : option Z
}.

(** What a [frame] closure captures: [segments], [batch], [delayMs] and
    the cursor [i]. *)
Record frame_closure (num : Type) : Type := FrameClosure {
  fc_segments : list (segment num);
  fc_batch : Z;
  fc_delayMs : Z;
  fc_i : nat
}.
Arguments FrameClosure {num} fc_segments fc_batch fc_delayMs fc_i.
Arguments fc_segments {num} _.
Arguments fc_batch {num} _.
Arguments fc_delayMs {num} _.
Arguments fc_i {num} _.

(** A callback waiting in the event loop: [setTimeout(() =>
    requestAnimationFrame(frame), delayMs)] or
    [requestAnimationFrame(frame)]. *)
Inductive task (num : Type) : Type :=
| Timeout (delay : Z) (c : frame_closure num)
| AnimationFrame (c : frame_closure num).
Arguments Timeout {num} delay c.
Arguments AnimationFrame {num} c.

(** The state the scheduler works on: the [{ cancelled }] objects created
    so far (a handle is the index of its object), the module variable
    [currentAnim], the callbacks waiting to run, and the calls made on the
    context. *)
Record world (num : Type) : Type := World {
  handles : list bool;
  currentAnim : option nat;
  pending : list (task num);
  canvas : list (canvas_op num)
}.
Arguments World {num} handles currentAnim pending canvas.
Arguments handles {num} _.
Arguments currentAnim {num} _.
Arguments pending {num} _.
Arguments canvas {num} _.

(** What happens to the page: a call of [drawSegmentsAnimated], a call of
    [stopDrawingAnimation], or the event loop running the [k]-th waiting
    callback. *)
Inductive event (num : Type) : Type :=
| StartAnimation (segments : list (segment num)) (options : anim_options)
| StopAnimation
| Fire (k : nat).
Arguments StartAnimation {num} segments options.
Arguments StopAnimation {num}.
Arguments Fire {num} k.

Module Animation.

Section Scheduler.

Context {num : Type}.

Definition initial_world : world num := World [] None [] [].

(** [ctx.moveTo(s.x1, s.y1); ctx.lineTo(s.x2, s.y2)]. *)
Definition trace_segment (s : segment num) : list (canvas_op num) :=
  [MoveTo (x1 s) (y1 s); LineTo (x2 s) (y2 s)].

(** The loop [for (let k = 0; k < batch && i < segments.length; k++, i++)]
    of [frame]: [rest] holds the segments from index [i] on, so that
    [i < segments.length] holds exactly when [rest] is not empty and
    [segments[i]] is its head.  Returns the cursor and the path traced. *)
Fixpoint batch_loop (batch k : Z) (i : nat) (rest : list (segment num))
    (path : list (canvas_op num)) : nat * list (canvas_op num) :=
  match rest with
  | [] => (i, path)
  | s :: rest' =>
      if (k <? batch)%Z
      then batch_loop batch (k + 1)%Z (S i) rest' (path ++ trace_segment s)
      else (i, path)
  end.

(** [!currentAnim || currentAnim.cancelled]. *)
Definition halted (w : world num) : bool :=
  match currentAnim w with
  | None => true
  | Some h => default false (handles w !! h)
  end.

(** One call of the closure [frame]. *)
Definition frame (c : frame_closure num) (w : world num) : world num :=
  if halted w then
    World (handles w) (currentAnim w) (pending w) (canvas w ++ [Restore])
  else
    let '(i, path) :=
      batch_loop (fc_batch c) 0 (fc_i c) (drop (fc_i c) (fc_segments c)) [] in
    let drawn := canvas w ++ [BeginPath] ++ path ++ [Stroke] in
    let c' := FrameClosure (fc_segments c) (fc_batch c) (fc_delayMs c) i in
    if (i <? length (fc_segments c))%nat then
      if (0 <? fc_delayMs c)%Z
      then World (handles w) (currentAnim w)
             (pending w ++ [Timeout (fc_delayMs c) c']) drawn
      else World (handles w) (currentAnim w)
             (pending w ++ [AnimationFrame c']) drawn
    else
      World (handles w) None (pending w) (drawn ++ [Restore]).

(** [drawSegmentsAnimated(ctx, segments, options)], with the defaults
    [batch = 2] and [delayMs = 0] of the destructuring. *)
Definition drawSegmentsAnimated (segments : list (segment num))
    (options : anim_options) (w : world num) : world num :=
  let batch := default 2%Z (opt_batch options) in
  let delayMs := default 0%Z (opt_delayMs options) in
  let cancelled :=
    match currentAnim w with
    | Some h => <[h := true]> (handles w)
    | None => handles w
    end in
  let fresh := length cancelled in
  frame (FrameClosure segments batch delayMs 0)
    (World (cancelled ++ [false]) (Some fresh) (pending w)
       (canvas w ++ [ClearSurface; Save; SetPen])).

(** [stopDrawingAnimation()]. *)
Definition stopDrawingAnimation (w : world num) : world num :=
  match currentAnim w with
  | Some h => World (<[h := true]> (handles w)) None (pending w) (canvas w)
  | None => World (handles w) None (pending w) (canvas w)
  end.

(** The event loop runs the [k]-th waiting callback: a timer hands its
    [frame] over to [requestAnimationFrame], an animation frame calls
    it. *)
Definition fire (k : nat) (w : world num) : world num :=
  match pending w !! k with
  | None => w
  | Some (Timeout _ c) =>
      World (handles w) (currentAnim w)
        (delete k (pending w) ++ [AnimationFrame c]) (canvas w)
  | Some (AnimationFrame c) =>
      frame c (World (handles w) (currentAnim w) (delete k (pending w)) (canvas w))
  end.

Definition react (w : world num) (e : event num) : world num :=
  match e with
  | StartAnimation segments options => drawSegmentsAnimated segments options w
  | StopAnimation => stopDrawingAnimation w
  | Fire k => fire k w
  end.

(** The page after a sequence of events. *)
Definition run (events : list (event num)) : world num :=
  fold_left react events initial_world.

End Scheduler.

End Animation.

Import Animation.

(** ** Direct rendering and the segment pipeline *)

Module Render.

Section Direct.

Context {num : Type}.

(** [drawSegments(ctx, segments)]: the whole path in one stroke.  The
    function does not look at [currentAnim]. *)
Definition drawSegments (segments : list (segment num)) (w : world num)
    : world num :=
  let path := fold_left (fun path s => path ++ trace_segment s) segments [] in
  World (handles w) (currentAnim w) (pending w)
    (canvas w ++ [ClearSurface; Save; SetPen] ++ [BeginPath] ++ path
       ++ [Stroke; Restore]).

(** The [moveTo] and [lineTo] calls of a log: the geometry put on the
    surface, whatever the grouping into strokes. *)
Definition is_trace (op : canvas_op num) : bool :=
  match op with
  | MoveTo _ _ | LineTo _ _ => true
  | _ => false
  end.

Definition traced (log : list (canvas_op num)) : list (canvas_op num) :=
  List.filter is_trace log.

(** The event loop runs the first waiting callback, [n] times over. *)
Definition drain (n : nat) (w : world num) : world num :=
  Nat.iter n (fire 0) w.

End Direct.

End Render.

Import Render.

Module Pipeline.

(** What [getConfig] hands to [computeSegments]: the axiom, the rule text,
    the iteration count, the angle and the step, already read from the
    form and validated. *)
Record config (num : Type) : Type := Config {
  cfg_axiom : list N;
  cfg_rulesText : list N;
  cfg_iters : Z;
  cfg_angleDeg : num;
  cfg_step : num
}.
Arguments Config {num} cfg_axiom cfg_rulesText cfg_iters cfg_angleDeg cfg_step.
Arguments cfg_axiom {num} _.
Arguments cfg_rulesText {num} _.
Arguments cfg_iters {num} _.
Arguments cfg_angleDeg {num} _.
Arguments cfg_step {num} _.

(** The argument of [updateStats]. *)
Record stats : Type := Stats { expandedLen : nat; segmentCount : nat }.

Section Compute.

Context {num : Type} `{JsNumber num}.

(** [computeSegments()] from the configuration on: parse, expand,
    interpret; returns the segments together with the statistics it
    passes to [updateStats].  A throw of [parseRules] propagates. *)
Definition computeSegments (cfg : config num)
    : completion (stats * list (segment num)) :=
  match parseRules (cfg_rulesText cfg) with
  | Throw e => Throw e
  | Return rules =>
      let expanded := expand (cfg_axiom cfg) rules (cfg_iters cfg) in
      let segments :=
        interpret expanded
          (TurtleOptions (Some (cfg_step cfg)) (Some (cfg_angleDeg cfg))) in
      Return (Stats (length expanded) (length segments), segments)
  end.

End Compute.

End Pipeline.

Import Pipeline.

(** ** Vocabulary of the further properties *)

(** A string without surrogate code units. *)
Definition bmp (s : list N) : Prop :=
  forallb (fun c => negb (is_surrogate c)) s = true.

(** The code units [interpret] reacts to: the drawing symbols, the two
    turns and the two brackets. *)
Definition is_command_unit (c : N) : bool :=
  (is_drawing_unit c || (c =? 0x2B) || (c =? 0x2D) || (c =? 0x5B) || (c =? 0x5D))%N.

(** Bracket nesting of a string read from depth [d]: the depth at its end,
    or [None] when a [\]] comes at depth 0. *)
Fixpoint bracket_depth (d : nat) (s : list N) : option nat :=
  match s with
  | [] => Some d
  | c :: rest =>
      if (c =? 0x5B)%N then bracket_depth (S d) rest
      else if (c =? 0x5D)%N then
        match d with
        | O => None
        | S d' => bracket_depth d' rest
        end
      else bracket_depth d rest
  end.

(** Every [\[] is closed and no [\]] comes unopened. *)
Definition balanced (s : list N) : Prop := bracket_depth 0 s = Some 0%nat.

Section Headings.

Context {num : Type} `{JsNumber num}.

(** The headings a turtle can have: the initial one, turned left or right
    by the angle any number of times. *)
Inductive heading_reachable (angleRad : num) : num -> Prop :=
| heading_initial : heading_reachable angleRad initial_heading
| heading_plus h :
    heading_reachable angleRad h -> heading_reachable angleRad (add h angleRad)
| heading_minus h :
    heading_reachable angleRad h -> heading_reachable angleRad (sub h angleRad).

End Headings.

(** ** Properties of strings *)

Section StringFacts.

Lemma symbols_cons_cons (c d : N) (s : list N) :
  symbols (c :: d :: s)
  = if is_high_surrogate c && is_low_surrogate d
    then [c; d] :: symbols s
    else [c] :: symbols (d :: s).
Proof. reflexivity. Qed.

(** Induction over a string two code units at a time, the way the
    iterator consumes it. *)
Lemma symbols_ind (P : list N -> Prop) :
  P [] ->
  (forall c, P [c]) ->
  (forall c d s, P s -> P (d :: s) -> P (c :: d :: s)) ->
  forall s, P s.
Proof.
  intros Hnil Hone Hstep s.
  cut (P s /\ forall c, P (c :: s)); [tauto|].
  induction s as [|d s [IH1 IH2]]; split; auto.
Qed.

Lemma symbols_concat (s : list N) : concat (symbols s) = s.
Proof.
  induction s as [| c | c d s IH1 IH2] using symbols_ind; try reflexivity.
  rewrite symbols_cons_cons.
  destruct (is_high_surrogate c && is_low_surrogate d); cbn [concat app].
  - now rewrite IH1.
  - now rewrite IH2.
Qed.

(** On a string without surrogates the symbols are the code units. *)
Lemma symbols_bmp (s : list N) :
  forallb (fun c => negb (is_surrogate c)) s = true ->
  symbols s = map (fun c => [c]) s.
Proof.
  induction s as [|c s IH]; intros Hs; [reflexivity|].
  cbn [forallb] in Hs. apply andb_true_iff in Hs as [Hc Hs].
  specialize (IH Hs).
  destruct s as [|d s']; [reflexivity|].
  rewrite symbols_cons_cons.
  replace (is_high_surrogate c) with false.
  - cbn [andb]. rewrite IH. reflexivity.
  - unfold is_surrogate, is_high_surrogate in *.
    destruct (0xD800 <=? c)%N eqn:E1; [|reflexivity].
    destruct (c <=? 0xDBFF)%N eqn:E2; [|reflexivity].
    apply N.leb_le in E2.
    assert (H : (c <=? 0xDFFF)%N = true) by (apply N.leb_le; lia).
    rewrite H in Hc. discriminate.
Qed.

End StringFacts.

(** ** Properties of the expander *)

Section ExpanderFacts.

Variable rules : gmap (list N) (list N).

Lemma fold_append_replacement (l : list (list N)) (acc : list N) :
  fold_left (append_replacement rules) l acc
  = acc ++ concat (map (replacement_of rules) l).
Proof.
  revert acc; induction l as [|ch l IH]; intros acc; cbn [fold_left map concat].
  - now rewrite app_nil_r.
  - rewrite IH. unfold append_replacement, replacement_of, default.
    now rewrite <- app_assoc.
Qed.

Lemma rewrite_pass_spec (s : list N) : rewrite_pass rules s = rewrite_once rules s.
Proof. unfold rewrite_pass. now rewrite fold_append_replacement. Qed.

(** The loop, started at counter [i] with enough fuel, performs exactly
    the remaining [iterations - i] passes. *)
Lemma expand_loop_spec (fuel : nat) (iterations i : Z) (s : list N) :
  (Z.to_nat (iterations - i) <= fuel)%nat ->
  expand_loop fuel rules iterations i s
  = rewrite_n rules (Z.to_nat (iterations - i)) s.
Proof.
  revert i s; induction fuel as [|fuel IH]; intros i s Hfuel.
  - replace (Z.to_nat (iterations - i)) with 0%nat by lia. reflexivity.
  - cbn [expand_loop]. destruct (i <? iterations)%Z eqn:Hlt.
    + apply Z.ltb_lt in Hlt.
      rewrite IH by lia.
      replace (Z.to_nat (iterations - i))
        with (S (Z.to_nat (iterations - (i + 1)))) by lia.
      unfold rewrite_n. rewrite Nat.iter_succ_r. now rewrite rewrite_pass_spec.
    + apply Z.ltb_ge in Hlt.
      replace (Z.to_nat (iterations - i)) with 0%nat by lia. reflexivity.
Qed.

Lemma expand_spec (axiom : list N) (iterations : Z) :
  expand axiom rules iterations = rewrite_n rules (Z.to_nat iterations) axiom.
Proof.
  unfold expand. rewrite expand_loop_spec by lia. now rewrite Z.sub_0_r.
Qed.

End ExpanderFacts.

Lemma rewrite_once_empty (s : list N) : rewrite_once ∅ s = s.
Proof.
  unfold rewrite_once.
  rewrite (map_ext _ (fun ch => ch)).
  - rewrite map_id. apply symbols_concat.
  - intros ch. unfold replacement_of. now rewrite lookup_empty.
Qed.

(** C1. For every axiom, rule table and iteration count [n >= 0],
    [expand] returns the result of [n] successive rewrites, one rewrite
    replacing every symbol of the current string by its rule-table mapping
    (or by itself when it has none) and concatenating the replacements in
    symbol order; with [n = 0] the axiom comes back unchanged. *)
Theorem expand_is_n_rewrites (axiom : list N) (rules : gmap (list N) (list N)) (n : nat) :
  expand axiom rules (Z.of_nat n) = rewrite_n rules n axiom
  /\ expand axiom rules 0 = axiom.
Proof.
  split.
  - rewrite expand_spec. now rewrite Nat2Z.id.
  - reflexivity.
Qed.

(** C8. With an empty rule table [expand] is the identity, whatever the
    iteration count [n >= 0]. *)
Theorem expand_empty_rules (axiom : list N) (n : nat) :
  expand axiom ∅ (Z.of_nat n) = axiom.
Proof.
  rewrite expand_spec, Nat2Z.id.
  induction n as [|n IH]; [reflexivity|].
  unfold rewrite_n in *. rewrite Nat.iter_succ, IH. apply rewrite_once_empty.
Qed.

(** ** Properties of the parser *)

Section ParserFacts.

Lemma filter_filter_andb {A} (f g : A -> bool) (l : list A) :
  List.filter f (List.filter g l) = List.filter (fun x => g x && f x) l.
Proof.
  induction l as [|x l IH]; [reflexivity|].
  cbn [List.filter]. destruct (g x); cbn [andb List.filter]; rewrite IH; reflexivity.
Qed.

Lemma rule_lines_text_lines (text : list N) :
  rule_lines text
  = List.filter (fun l => negb (startsWith l HASH)) (text_lines text).
Proof. unfold rule_lines, text_lines. now rewrite filter_filter_andb. Qed.

(** A line with a separator splits around its first separator. *)
Lemma separator_split (line : list N) :
  has_separator line = true ->
  line = before_separator line ++ EQUALS :: after_separator line.
Proof.
  unfold has_separator.
  induction line as [|c line IH];
    cbn [existsb before_separator after_separator]; [discriminate|].
  rewrite (N.eqb_sym EQUALS c).
  destruct (N.eqb_spec c EQUALS) as [->|Hne]; cbn [orb app]; [reflexivity|].
  intros H. now rewrite <- IH.
Qed.

Lemma indexOf_from_separator (from : Z) (line : list N) :
  indexOf_from from EQUALS line
  = if has_separator line
    then (from + Z.of_nat (length (before_separator line)))%Z
    else (-1)%Z.
Proof.
  unfold has_separator.
  revert from; induction line as [|c line IH]; intros from;
    cbn [existsb before_separator indexOf_from]; [reflexivity|].
  rewrite (N.eqb_sym EQUALS c).
  destruct (c =? EQUALS)%N; cbn [orb length].
  - lia.
  - rewrite IH. destruct (existsb (N.eqb EQUALS) line); lia.
Qed.

Lemma indexOf_separator (line : list N) :
  indexOf line EQUALS
  = if has_separator line
    then Z.of_nat (length (before_separator line))
    else (-1)%Z.
Proof. unfold indexOf. rewrite indexOf_from_separator. now destruct has_separator. Qed.

Lemma slice_prefix (a b : list N) :
  slice (a ++ b) 0 (Z.of_nat (length a)) = a.
Proof.
  unfold slice, resolve_index. rewrite length_app.
  replace (0 <? 0)%Z with false by reflexivity.
  replace (Z.of_nat (length a) <? 0)%Z with false by (symmetry; apply Z.ltb_ge; lia).
  replace (Z.to_nat (Z.min 0 (Z.of_nat (length a + length b)))) with 0%nat by lia.
  cbn [skipn].
  replace (Z.to_nat _) with (length a) by lia.
  rewrite skipn_O, firstn_app, firstn_all, Nat.sub_diag, firstn_O.
  apply app_nil_r.
Qed.

Lemma slice_from_suffix (a b : list N) (c : N) :
  slice_from (a ++ c :: b) (Z.of_nat (length a) + 1) = b.
Proof.
  unfold slice_from, slice, resolve_index. rewrite length_app. cbn [length].
  replace (Z.of_nat (length a) + 1 <? 0)%Z with false by (symmetry; apply Z.ltb_ge; lia).
  replace (Z.of_nat (length a + S (length b)) <? 0)%Z with false
    by (symmetry; apply Z.ltb_ge; lia).
  replace (Z.to_nat (Z.min (Z.of_nat (length a) + 1) _)) with (length a + 1)%nat by lia.
  replace (Z.to_nat _) with (length b) by lia.
  replace (a ++ c :: b) with ((a ++ [c]) ++ b) by now rewrite <- app_assoc.
  rewrite skipn_app, skipn_all2 by (rewrite length_app; cbn; lia).
  rewrite length_app. cbn [length app].
  replace (length a + 1 - (length a + 1))%nat with 0%nat by lia.
  cbn [skipn]. apply firstn_all.
Qed.

(** One turn of the loop, in the vocabulary of the specification. *)
Lemma parse_lines_cons (line : list N) (rest : list (list N))
    (rules : gmap (list N) (list N)) :
  parse_lines (line :: rest) rules
  = if startsWith line HASH then parse_lines rest rules
    else if malformed line then Throw (error_of line)
    else parse_lines rest (<[lhs_of line := rhs_of line]> rules).
Proof.
  cbn [parse_lines]. destruct (startsWith line HASH); [reflexivity|].
  rewrite indexOf_separator. unfold malformed, error_of.
  destruct (has_separator line) eqn:Hsep; cbn [negb orb]; [|reflexivity].
  replace (Z.of_nat (length (before_separator line)) =? -1)%Z with false
    by (symmetry; apply Z.eqb_neq; lia).
  assert (Hl : lhs_at line (Z.of_nat (length (before_separator line))) = lhs_of line).
  { unfold lhs_at, lhs_of. rewrite (separator_split line Hsep) at 1.
    now rewrite slice_prefix. }
  assert (Hr : rhs_at line (Z.of_nat (length (before_separator line))) = rhs_of line).
  { unfold rhs_at, rhs_of. rewrite (separator_split line Hsep) at 1.
    now rewrite slice_from_suffix. }
  now rewrite Hl, Hr.
Qed.

(** What the loop does on a whole list of lines: it throws at the first
    malformed rule line, and otherwise inserts every rule in order. *)
Lemma parse_lines_spec (lines : list (list N)) (rules : gmap (list N) (list N)) :
  let rl := List.filter (fun l => negb (startsWith l HASH)) lines in
  match parse_lines lines rules with
  | Throw e =>
      exists l1 line l2,
        rl = l1 ++ line :: l2 /\ forallb (fun l => negb (malformed l)) l1 = true
        /\ malformed line = true /\ e = error_of line
  | Return r =>
      forallb (fun l => negb (malformed l)) rl = true
      /\ forall k, r !! k = match last_rule_for k rl with
                            | Some v => Some v
                            | None => rules !! k
                            end
  end.
Proof.
  revert rules; induction lines as [|line rest IH]; intros rules.
  - cbn. auto.
  - cbv zeta. rewrite parse_lines_cons. cbn [List.filter].
    destruct (startsWith line HASH); cbn [negb]; [apply IH|].
    destruct (malformed line) eqn:Hm.
    + exists [], line, (List.filter (fun l => negb (startsWith l HASH)) rest).
      auto.
    + specialize (IH (<[lhs_of line := rhs_of line]> rules)). cbv zeta in IH.
      destruct (parse_lines rest _) as [r|e].
      * destruct IH as [Hall Hr]. split.
        { cbn [forallb]. now rewrite Hm. }
        intros k. rewrite Hr. cbn [last_rule_for].
        destruct (last_rule_for k _); [reflexivity|].
        rewrite lookup_insert. unfold bool_decide.
        destruct (decide_rel eq (lhs_of line) k), (decide (lhs_of line = k));
          congruence.
      * destruct IH as (l1 & bad & l2 & Heq & Hl1 & Hbad & He).
        exists (line :: l1), bad, l2. rewrite Heq. cbn [forallb]. rewrite Hm.
        auto.
Qed.

Lemma forallb_not_malformed (lines : list (list N)) :
  forallb (fun l => negb (malformed l)) lines = true
  <-> forall line, In line lines -> malformed line = false.
Proof.
  rewrite forallb_forall. split; intros H l Hl; specialize (H l Hl);
    destruct (malformed l); cbn in *; congruence.
Qed.

Lemma parseRules_spec (text : list N) :
  match parseRules text with
  | Throw e =>
      exists l1 line l2,
        rule_lines text = l1 ++ line :: l2
        /\ (forall l, In l l1 -> malformed l = false)
        /\ malformed line = true /\ e = error_of line
  | Return r =>
      (forall l, In l (rule_lines text) -> malformed l = false)
      /\ forall k, r !! k = last_rule_for k (rule_lines text)
  end.
Proof.
  unfold parseRules. rewrite rule_lines_text_lines.
  pose proof (parse_lines_spec (text_lines text) ∅) as H. cbv zeta in H.
  destruct (parse_lines (text_lines text) ∅) as [r|e].
  - destruct H as [Hall Hr]. split; [now apply forallb_not_malformed|].
    intros k. rewrite Hr. destruct (last_rule_for k _); [reflexivity|].
    apply lookup_empty.
  - destruct H as (l1 & line & l2 & Heq & Hl1 & Hbad & He).
    exists l1, line, l2. repeat split; auto. now apply forallb_not_malformed.
Qed.

Lemma last_rule_for_app (k : list N) (l1 l2 : list (list N)) :
  last_rule_for k (l1 ++ l2)
  = match last_rule_for k l2 with
    | Some v => Some v
    | None => last_rule_for k l1
    end.
Proof.
  induction l1 as [|line l1 IH]; cbn [app last_rule_for].
  - now destruct (last_rule_for k l2).
  - rewrite IH. now destruct (last_rule_for k l2).
Qed.

Lemma last_rule_for_none (k : list N) (lines : list (list N)) :
  (forall l, In l lines -> lhs_of l <> k) -> last_rule_for k lines = None.
Proof.
  induction lines as [|line lines IH]; intros H; [reflexivity|].
  cbn [last_rule_for]. rewrite IH by (intros l Hl; apply H; now right).
  rewrite bool_decide_eq_false_2; [reflexivity|]. apply H. now left.
Qed.

End ParserFacts.

(** C3. [parseRules] throws exactly when some rule line (a trimmed line
    that is neither blank nor starts with [#]) has no [=] or a left-hand
    side that is not exactly one character; otherwise it returns the
    complete rule table, each key mapped to the replacement of the last
    line that defines it; a call that throws returns no rule table. *)
Theorem parseRules_throws_iff_malformed (text : list N) :
  ((exists e, parseRules text = Throw e)
   <-> (exists line, In line (rule_lines text) /\ malformed line = true))
  /\ ((forall line, In line (rule_lines text) -> malformed line = false)
      -> exists rules, parseRules text = Return rules
           /\ forall k, rules !! k = last_rule_for k (rule_lines text))
  /\ ((exists e, parseRules text = Throw e)
      -> forall rules, parseRules text <> Return rules).
Proof.
  pose proof (parseRules_spec text) as H.
  destruct (parseRules text) as [r|e].
  - destruct H as [Hall Hr]. repeat split.
    + intros [e He]. discriminate.
    + intros (line & Hin & Hbad). rewrite (Hall line Hin) in Hbad. discriminate.
    + intros _. exists r. auto.
    + intros [e He]. discriminate.
  - destruct H as (l1 & line & l2 & Heq & Hl1 & Hbad & He). repeat split.
    + intros _. exists line. split; [|exact Hbad].
      rewrite Heq. apply in_or_app. right. now left.
    + intros _. now exists e.
    + intros Hall. rewrite (Hall line) in Hbad; [discriminate|].
      rewrite Heq. apply in_or_app. right. now left.
    + intros _ rules. discriminate.
Qed.

(** C9. When every rule line is well formed, [parseRules] succeeds, and a
    left-hand side defined by several lines is mapped to the replacement
    of the last of them: later lines overwrite earlier ones. *)
Theorem parseRules_last_duplicate_wins (text : list N)
    (earlier : list (list N)) (line : list N) (later : list (list N)) :
  rule_lines text = earlier ++ line :: later ->
  (forall l, In l (rule_lines text) -> malformed l = false) ->
  (forall l, In l later -> lhs_of l <> lhs_of line) ->
  exists rules, parseRules text = Return rules
    /\ rules !! lhs_of line = Some (rhs_of line).
Proof.
  intros Heq Hwf Hlater.
  pose proof (parseRules_spec text) as H.
  destruct (parseRules text) as [r|e].
  - destruct H as [_ Hr]. exists r. split; [reflexivity|].
    rewrite Hr, Heq, last_rule_for_app. cbn [last_rule_for].
    rewrite (last_rule_for_none _ later Hlater).
    now rewrite bool_decide_eq_true_2.
  - destruct H as (l1 & bad & l2 & Hbadeq & _ & Hbad & _).
    rewrite (Hwf bad) in Hbad; [discriminate|].
    rewrite Hbadeq. apply in_or_app. right. now left.
Qed.

(** The rule text "A=AB", "B=A", "A=B" on three lines: [A] ends up mapped
    to "B". *)
Lemma parseRules_last_duplicate_wins_witness :
  rule_lines (str "A=AB" ++ [LF] ++ str "B=A" ++ [LF] ++ str "A=B")
  = [str "A=AB"; str "B=A"] ++ str "A=B" :: []
  /\ exists rules,
       parseRules (str "A=AB" ++ [LF] ++ str "B=A" ++ [LF] ++ str "A=B")
       = Return rules
       /\ rules !! str "A" = Some (str "B").
Proof.
  split; [reflexivity|].
  apply (parseRules_last_duplicate_wins
           (str "A=AB" ++ [LF] ++ str "B=A" ++ [LF] ++ str "A=B")
           [str "A=AB"; str "B=A"] (str "A=B") []).
  - reflexivity.
  - intros l Hl. vm_compute in Hl.
    destruct Hl as [<-|[<-|[<-|[]]]]; reflexivity.
  - intros l [].
Defined.

(** ** Properties of the turtle interpreter *)

Section TurtleFacts.

Context {num : Type} `{JsNumber num}.

Variables stepLen angleRad : num.

Lemma array_pop_nil {A} : array_pop (@nil A) = (None, []).
Proof. reflexivity. Qed.

Lemma array_pop_rev_cons {A} (v : A) (l : list A) :
  array_pop (rev (v :: l)) = (Some v, rev l).
Proof. unfold array_pop. now rewrite rev_involutive. Qed.

Lemma drawing_is_sym (ch : list N) :
  is_sym ch "A" || is_sym ch "B" || is_sym ch "F" = true <-> drawing ch.
Proof.
  unfold is_sym, drawing. rewrite !orb_true_iff, !bool_decide_eq_true. tauto.
Qed.

Lemma not_drawing_is_sym (ch : list N) :
  is_sym ch "A" || is_sym ch "B" || is_sym ch "F" = false <-> ~ drawing ch.
Proof.
  rewrite <- drawing_is_sym. now destruct (_ || _ || _).
Qed.

(** Whatever has been emitted so far, the loop appends to it the segments
    of a pass of the state machine. *)
Lemma interpret_loop_pass (syms : list (list N)) :
  forall (t : turtle) (segs : list (segment num)),
  exists out,
    interpret_loop stepLen angleRad syms
      (pos_x t) (pos_y t) (heading t) (rev (saves t)) segs = segs ++ out
    /\ turtle_pass stepLen angleRad syms t out.
Proof.
  induction syms as [|ch rest IH]; intros t segs.
  - exists []. split; [symmetry; apply app_nil_r | constructor].
  - cbn [interpret_loop].
    destruct (is_sym ch "A" || is_sym ch "B" || is_sym ch "F") eqn:Hdraw.
    { apply drawing_is_sym in Hdraw.
      destruct (IH (forward stepLen t)
                  (segs ++ [segment_between t (forward stepLen t)]))
        as (out & Hout & Hpass).
      exists (segment_between t (forward stepLen t) :: out). split.
      - replace (segs ++ segment_between t (forward stepLen t) :: out)
          with ((segs ++ [segment_between t (forward stepLen t)]) ++ out)
          by now rewrite <- app_assoc.
        exact Hout.
      - now apply pass_draw. }
    apply not_drawing_is_sym in Hdraw.
    unfold is_sym. case_bool_decide as Hplus.
    { subst ch.
      destruct (IH (Turtle (pos_x t) (pos_y t) (add (heading t) angleRad) (saves t)) segs)
        as (out & Hout & Hpass).
      exists out. split; [exact Hout | now apply pass_plus]. }
    case_bool_decide as Hminus.
    { subst ch.
      destruct (IH (Turtle (pos_x t) (pos_y t) (sub (heading t) angleRad) (saves t)) segs)
        as (out & Hout & Hpass).
      exists out. split; [exact Hout | now apply pass_minus]. }
    case_bool_decide as Hpush.
    { subst ch.
      destruct (IH (Turtle (pos_x t) (pos_y t) (heading t)
                      (Saved (pos_x t) (pos_y t) (heading t) :: saves t)) segs)
        as (out & Hout & Hpass).
      exists out. split; [exact Hout | now apply pass_push]. }
    case_bool_decide as Hpop.
    { subst ch. destruct (saves t) as [|s below] eqn:Hsaves.
      - cbn [rev]. rewrite array_pop_nil.
        destruct (IH t segs) as (out & Hout & Hpass).
        exists out. rewrite Hsaves in Hout. split; [exact Hout|].
        now apply pass_pop_empty.
      - rewrite array_pop_rev_cons.
        destruct (IH (Turtle (saved_x s) (saved_y s) (saved_theta s) below) segs)
          as (out & Hout & Hpass).
        exists out. split; [exact Hout|]. now apply pass_pop with s below. }
    destruct (IH t segs) as (out & Hout & Hpass).
    exists out. split; [exact Hout|].
    apply pass_other; [|exact Hpass].
    unfold meaningful. tauto.
Qed.

Lemma literal_not_drawing (c : string) :
  In c ["+"; "-"; "["; "]"]%string -> ~ drawing (str c).
Proof.
  unfold drawing. cbn [In].
  intros [<-|[<-|[<-|[<-|[]]]]] [E|[E|E]]; vm_compute in E; discriminate.
Qed.

Lemma literal_meaningful (c : string) :
  In c ["+"; "-"; "["; "]"]%string -> meaningful (str c).
Proof.
  unfold meaningful. cbn [In]. intros [<-|[<-|[<-|[<-|[]]]]]; tauto.
Qed.

(** A pass emits one sequence of segments only. *)
Lemma turtle_pass_deterministic (syms : list (list N)) (t : turtle)
    (out1 out2 : list (segment num)) :
  turtle_pass stepLen angleRad syms t out1 ->
  turtle_pass stepLen angleRad syms t out2 ->
  out1 = out2.
Proof.
  intros H1; revert out2.
  induction H1 as [ t | ch rest t segs Hd _ IH | rest t segs _ IH
                  | rest t segs _ IH | rest t segs _ IH
                  | rest t s below segs Hs _ IH | rest t segs Hs _ IH
                  | ch rest t segs Hn _ IH ];
    intros out2 H2; inversion H2; subst;
    try reflexivity;
    try (f_equal; now apply IH);
    try (now apply IH);
    try (exfalso;
         match goal with
         | Hd : drawing (str ?c) |- _ =>
             apply (literal_not_drawing c); [cbn; tauto | exact Hd]
         | Hn : ~ meaningful (str ?c) |- _ =>
             apply Hn, (literal_meaningful c); cbn; tauto
         | Hn : ~ meaningful ?ch, Hd : drawing ?ch |- _ =>
             apply Hn; left; exact Hd
         | E : str _ = str _ |- _ => vm_compute in E; discriminate
         | E1 : saves ?t = _, E2 : saves ?t = _ |- _ =>
             rewrite E1 in E2; discriminate
         end).
  - match goal with
    | E1 : saves ?t = _, E2 : saves ?t = _ |- _ =>
        rewrite E1 in E2; injection E2 as -> ->
    end.
    now apply IH.
Qed.

End TurtleFacts.

(** C2. [interpret] is one left-to-right pass of the turtle state machine
    over the symbols of its input, from position (0,0), heading -pi/2 and
    an empty stack: a drawing symbol emits one segment from the position to
    the position plus (step cos heading, step sin heading) and moves there,
    [+] and [-] add and subtract the angle in radians, the brackets save
    and restore, and every other symbol changes and emits nothing. *)
Theorem interpret_is_turtle_pass {num : Type} `{JsNumber num}
    (lsys : list N) (stepLen angle : num) (segs : list (segment num)) :
  interpret lsys (TurtleOptions (Some stepLen) (Some angle)) = segs
  <-> turtle_pass stepLen (to_radians angle) (symbols lsys) initial_turtle segs.
Proof.
  destruct (interpret_loop_pass stepLen (to_radians angle) (symbols lsys)
              initial_turtle []) as (out & Hout & Hpass).
  assert (Hrun : interpret lsys (TurtleOptions (Some stepLen) (Some angle)) = out)
    by exact Hout.
  rewrite Hrun. split.
  - now intros <-.
  - intros Hsegs. eapply turtle_pass_deterministic; eassumption.
Qed.

Section TurtleCounting.

Context {num : Type} `{JsNumber num}.

Lemma symbols_cons_bmp (c : N) (s : list N) :
  is_high_surrogate c = false -> symbols (c :: s) = [c] :: symbols s.
Proof.
  intros Hc. destruct s as [|d s]; [reflexivity|].
  rewrite symbols_cons_cons, Hc. reflexivity.
Qed.

Lemma interpret_loop_length (stepLen angleRad : num) (syms : list (list N)) :
  forall x y theta stack segs,
  length (interpret_loop stepLen angleRad syms x y theta stack segs)
  = (length segs + length (List.filter draws syms))%nat.
Proof.
  induction syms as [|ch rest IH]; intros x y theta stack segs.
  - cbn. lia.
  - cbn [interpret_loop List.filter]. fold (draws ch).
    destruct (draws ch).
    + rewrite IH, length_app. cbn [length]. lia.
    + destruct (is_sym ch "+"); [apply IH|].
      destruct (is_sym ch "-"); [apply IH|].
      destruct (is_sym ch "["); [apply IH|].
      destruct (is_sym ch "]"); [|apply IH].
      destruct (array_pop stack) as [[state|] stack']; apply IH.
Qed.

Lemma draws_unit (c : N) : draws [c] = is_drawing_unit c.
Proof.
  unfold draws, is_sym, is_drawing_unit.
  change (str "A") with [0x41%N]. change (str "B") with [0x42%N].
  change (str "F") with [0x46%N].
  apply eq_true_iff_eq.
  rewrite !orb_true_iff, !bool_decide_eq_true, !N.eqb_eq.
  split; intros [[E|E]|E]; try (injection E as ->); subst; auto.
Qed.

Lemma draws_pair (c d : N) : draws [c; d] = false.
Proof.
  unfold draws, is_sym.
  rewrite !bool_decide_eq_false_2; [reflexivity|..]; intros E; discriminate E.
Qed.

Lemma surrogate_not_drawing (c : N) :
  is_surrogate c = true -> is_drawing_unit c = false.
Proof.
  unfold is_surrogate, is_drawing_unit. intros Hc.
  apply andb_true_iff in Hc as [Hlo _]. apply N.leb_le in Hlo.
  rewrite !orb_false_iff, !N.eqb_neq. lia.
Qed.

Lemma high_is_surrogate (c : N) : is_high_surrogate c = true -> is_surrogate c = true.
Proof.
  unfold is_high_surrogate, is_surrogate. rewrite !andb_true_iff, !N.leb_le. lia.
Qed.

Lemma low_is_surrogate (c : N) : is_low_surrogate c = true -> is_surrogate c = true.
Proof.
  unfold is_low_surrogate, is_surrogate. rewrite !andb_true_iff, !N.leb_le. lia.
Qed.

(** Grouping surrogate pairs neither hides nor creates a drawing symbol. *)
Lemma drawing_symbols_are_units (s : list N) :
  length (List.filter draws (symbols s)) = length (List.filter is_drawing_unit s).
Proof.
  induction s as [| c | c d s IH1 IH2] using symbols_ind.
  - reflexivity.
  - cbn [symbols List.filter]. rewrite draws_unit.
    now destruct (is_drawing_unit c).
  - rewrite symbols_cons_cons.
    destruct (is_high_surrogate c && is_low_surrogate d) eqn:Hpair.
    + apply andb_true_iff in Hpair as [Hc Hd].
      cbn [List.filter].
      rewrite draws_pair,
        (surrogate_not_drawing c (high_is_surrogate c Hc)),
        (surrogate_not_drawing d (low_is_surrogate d Hd)).
      exact IH1.
    + change (List.filter draws ([c] :: symbols (d :: s)))
        with (if draws [c] then [c] :: List.filter draws (symbols (d :: s))
              else List.filter draws (symbols (d :: s))).
      change (List.filter is_drawing_unit (c :: d :: s))
        with (if is_drawing_unit c then c :: List.filter is_drawing_unit (d :: s)
              else List.filter is_drawing_unit (d :: s)).
      rewrite draws_unit. destruct (is_drawing_unit c); cbn [length]; now rewrite IH2.
Qed.

Lemma interpret_length (lsys : list N) (options : turtle_options num) :
  length (interpret lsys options) = length (List.filter is_drawing_unit lsys).
Proof.
  unfold interpret. rewrite interpret_loop_length. cbn [length].
  apply drawing_symbols_are_units.
Qed.

End TurtleCounting.

(** C4. A [\]] met with an empty stack raises nothing and changes
    nothing: the loop goes on with the same position, heading, stack and
    segments, so a leading [\]] does not change the result, and [\]A]
    yields exactly one segment, from the origin along the initial
    heading. *)
Theorem unbalanced_pop_is_noop {num : Type} `{JsNumber num} (stepLen angle : num) :
  (forall rest x y theta segs,
     interpret_loop stepLen angle (str "]" :: rest) x y theta [] segs
     = interpret_loop stepLen angle rest x y theta [] segs)
  /\ (forall lsys options,
        interpret (str "]" ++ lsys) options = interpret lsys options)
  /\ interpret (str "]A") (TurtleOptions (Some stepLen) (Some angle))
     = [Segment (lit 0) (lit 0)
          (add (lit 0) (mul stepLen (cos initial_heading)))
          (add (lit 0) (mul stepLen (sin initial_heading)))].
Proof.
  split; [|split].
  - reflexivity.
  - intros lsys options. unfold interpret.
    change (str "]" ++ lsys) with (0x5D%N :: lsys).
    rewrite symbols_cons_bmp by reflexivity. reflexivity.
  - reflexivity.
Qed.

(** C7. With step 1 and angle 90 degrees, [F[+F]F] yields exactly three
    segments; the second leaves the end of the first along the turned
    heading, and the third starts at the end of the first too and runs
    along the heading saved at the bracket, not the turned one (the two
    headings are different expressions). *)
Theorem branch_restores_position_and_heading :
  (forall (num : Type) (ops : JsNumber num),
     let turned := add initial_heading (to_radians (lit 90)) in
     exists s1 s2 s3 : segment num,
       interpret (str "F[+F]F") (TurtleOptions (Some (lit 1)) (Some (lit 90)))
       = [s1; s2; s3]
       /\ x1 s2 = x2 s1 /\ y1 s2 = y2 s1
       /\ x2 s2 = add (x1 s2) (mul (lit 1) (cos turned))
       /\ y2 s2 = add (y1 s2) (mul (lit 1) (sin turned))
       /\ x1 s3 = x2 s1 /\ y1 s3 = y2 s1
       /\ x2 s3 = add (x1 s3) (mul (lit 1) (cos initial_heading))
       /\ y2 s3 = add (y1 s3) (mul (lit 1) (sin initial_heading)))
  /\ (initial_heading : term) <> add initial_heading (to_radians (lit 90)).
Proof.
  split.
  - intros num ops. cbv zeta. do 3 eexists. split; [reflexivity|].
    cbn [x1 y1 x2 y2]. repeat split; reflexivity.
  - discriminate.
Qed.

(** C10. The drawing alphabet is exactly [A], [B] and [F]: [interpret]
    emits as many segments as its input has occurrences of these three
    characters, and taking any other character out of the input leaves the
    number of segments unchanged. *)
Theorem segments_count_drawing_symbols {num : Type} `{JsNumber num}
    (lsys : list N) (options : turtle_options num) :
  length (interpret lsys options) = length (List.filter is_drawing_unit lsys)
  /\ (forall c, is_drawing_unit c = true <-> c = 0x41%N \/ c = 0x42%N \/ c = 0x46%N)
  /\ (forall before c after,
        lsys = before ++ c :: after -> is_drawing_unit c = false ->
        length (interpret lsys options)
        = length (interpret (before ++ after) options)).
Proof.
  split; [apply interpret_length | split].
  - intros c. unfold is_drawing_unit. rewrite !orb_true_iff, !N.eqb_eq. tauto.
  - intros before c after -> Hc. rewrite !interpret_length.
    rewrite !List.filter_app. cbn [List.filter]. now rewrite Hc.
Qed.

(** ** Properties of the animation scheduler *)

Section AnimationFacts.

Context {num : Type}.

(** The batch loop traces the next [n] segments in order and advances the
    cursor by [n], where [n] is the batch size left or the number of
    segments left, whichever is smaller. *)
Lemma batch_loop_spec (batch : Z) (rest : list (segment num)) :
  forall (k : Z) (i : nat) (path : list (canvas_op num)),
  let n := Nat.min (Z.to_nat (batch - k)) (length rest) in
  batch_loop batch k i rest path
  = ((i + n)%nat, path ++ flat_map trace_segment (take n rest)).
Proof.
  induction rest as [|s rest IH]; intros k i path; cbv zeta.
  - rewrite Nat.min_0_r, Nat.add_0_r. cbn. now rewrite app_nil_r.
  - cbn [batch_loop length]. destruct (k <? batch)%Z eqn:Hk.
    + apply Z.ltb_lt in Hk.
      replace (Z.to_nat (batch - k)) with (S (Z.to_nat (batch - (k + 1)))) by lia.
      rewrite IH. rewrite <- Nat.succ_min_distr.
      cbn [take flat_map firstn]. rewrite <- app_assoc.
      f_equal. lia.
    + apply Z.ltb_ge in Hk.
      replace (Z.to_nat (batch - k)) with 0%nat by lia.
      cbn. now rewrite Nat.add_0_r, app_nil_r.
Qed.

(** A tick that finds no current animation, or a cancelled one, draws
    nothing and schedules nothing. *)
Lemma frame_halted (c : frame_closure num) (w : world num) :
  halted w = true ->
  frame c w = World (handles w) (currentAnim w) (pending w) (canvas w ++ [Restore]).
Proof. unfold frame. now intros ->. Qed.

(** A tick that goes ahead strokes one batch and schedules the next tick
    exactly when segments remain. *)
Lemma frame_live (c : frame_closure num) (w : world num) :
  halted w = false ->
  let n := Nat.min (Z.to_nat (fc_batch c)) (length (fc_segments c) - fc_i c) in
  let i := (fc_i c + n)%nat in
  let c' := FrameClosure (fc_segments c) (fc_batch c) (fc_delayMs c) i in
  let more := (i <? length (fc_segments c))%nat in
  canvas (frame c w)
  = canvas w ++ [BeginPath]
      ++ flat_map trace_segment (take n (drop (fc_i c) (fc_segments c)))
      ++ [Stroke] ++ (if more then [] else [Restore])
  /\ pending (frame c w)
     = pending w
         ++ (if more
             then [if (0 <? fc_delayMs c)%Z then Timeout (fc_delayMs c) c'
                   else AnimationFrame c']
             else [])
  /\ currentAnim (frame c w) = (if more then currentAnim w else None)
  /\ handles (frame c w) = handles w.
Proof.
  intros Hlive. cbv zeta. unfold frame. rewrite Hlive.
  rewrite batch_loop_spec. cbv zeta. rewrite Z.sub_0_r, length_skipn.
  cbn [app].
  destruct (_ <? length (fc_segments c))%nat.
  - destruct (0 <? fc_delayMs c)%Z; cbn [canvas pending currentAnim handles];
      rewrite ?app_nil_r; repeat split; reflexivity.
  - cbn [canvas pending currentAnim handles]. rewrite app_nil_r.
    repeat split. rewrite <- app_assoc. cbn [app]. now rewrite <- app_assoc.
Qed.

Lemma frame_handles (c : frame_closure num) (w : world num) :
  handles (frame c w) = handles w.
Proof.
  destruct (halted w) eqn:Hw.
  - now rewrite frame_halted.
  - now apply frame_live.
Qed.

(** Starting an animation sets the flag of the handle that was current. *)
Lemma start_cancels_current (segments : list (segment num))
    (options : anim_options) (w : world num) (h : nat) :
  currentAnim w = Some h ->
  (h < length (handles w))%nat ->
  handles (drawSegmentsAnimated segments options w) !! h = Some true.
Proof.
  intros Hcur Hh. unfold drawSegmentsAnimated. rewrite frame_handles, Hcur.
  cbn [handles]. rewrite lookup_app_l by now rewrite length_insert.
  now apply list_lookup_insert_eq.
Qed.

End AnimationFacts.

(** C5, evaluated on the page where Grow is pressed twice (each press
    stops and starts, with batch 1 and a 10 ms delay): the second start has
    set the flag of the first handle, the second handle is current, and the
    waiting tick of the first animation still strokes its next segment. *)
Theorem cancelled_animation_keeps_drawing {num : Type}
    (a0 a1 a2 b0 b1 b2 : segment num) :
  let grow := AnimOptions (Some 1%Z) (Some 10%Z) in
  let before :=
    run [StopAnimation; StartAnimation [a0; a1; a2] grow;
         StopAnimation; StartAnimation [b0; b1; b2] grow; Fire 0] in
  let after := react before (Fire 1) in
  handles before = [true; false]
  /\ currentAnim before = Some 1%nat
  /\ pending before !! 1%nat
     = Some (AnimationFrame (FrameClosure [a0; a1; a2] 1 10 1))
  /\ canvas after
     = canvas before
         ++ [BeginPath; MoveTo (x1 a1) (y1 a1); LineTo (x2 a1) (y2 a1); Stroke].
Proof. cbv zeta. repeat split; reflexivity. Qed.

(** C6, evaluated on the same page: the tick of the first animation runs
    although the flag of its handle is set, and since segments remain it
    schedules a further tick, with the cursor advanced to 2. *)
Theorem cancelled_animation_schedules_next_tick {num : Type}
    (a0 a1 a2 b0 b1 b2 : segment num) :
  let grow := AnimOptions (Some 1%Z) (Some 10%Z) in
  let before :=
    run [StopAnimation; StartAnimation [a0; a1; a2] grow;
         StopAnimation; StartAnimation [b0; b1; b2] grow; Fire 0] in
  let after := react before (Fire 1) in
  handles after = [true; false]
  /\ pending before
     = [Timeout 10 (FrameClosure [b0; b1; b2] 1 10 1);
        AnimationFrame (FrameClosure [a0; a1; a2] 1 10 1)]
  /\ pending after
     = [Timeout 10 (FrameClosure [b0; b1; b2] 1 10 1);
        Timeout 10 (FrameClosure [a0; a1; a2] 1 10 2)].
Proof. cbv zeta. repeat split; reflexivity. Qed.

(** ** Worked examples *)

(** The rule table of the algae system, "A=AB" and "B=A". *)
Definition algae_rules : gmap (list N) (list N) :=
  <[str "A" := str "AB"]> (<[str "B" := str "A"]> ∅).

Example parse_algae :
  parseRules (str "A=AB" ++ [LF] ++ str "B=A") = Return algae_rules.
Proof. vm_compute. reflexivity. Qed.

Example algae_lengths :
  map (fun n => length (expand (str "A") algae_rules (Z.of_nat n))) (seq 0 5)
  = [1; 2; 3; 5; 8]%nat.
Proof. vm_compute. reflexivity. Qed.

Example parse_comment_and_blank_lines :
  parseRules (str "  # rules " ++ [LF] ++ [LF] ++ str " F = F+F ")
  = Return (<[str "F" := str "F+F"]> ∅).
Proof. vm_compute. reflexivity. Qed.

Example parse_two_character_lhs :
  parseRules (str "AB=C") = Throw (BadRuleLhs (str "AB")).
Proof. reflexivity. Qed.

Example parse_empty_lhs :
  parseRules (str "=C") = Throw (BadRuleLhs []).
Proof. reflexivity. Qed.

Example parse_missing_separator :
  parseRules (str "A=AB" ++ [LF] ++ str "B") = Throw (BadRuleLine (str "B")).
Proof. reflexivity. Qed.

(** A surrogate pair is one symbol: a rule for its first half does not
    apply to it. *)
Example expand_surrogate_pair :
  expand [0xD83D; 0xDE00]%N (<[[0xD83D%N] := str "X"]> ∅) 1
  = [0xD83D; 0xDE00]%N.
Proof. vm_compute. reflexivity. Qed.

(** The bushy plant: axiom "F", rule "F=F[+F]F[-F]F", two iterations. *)
Example plant_segments :
  let rules : gmap (list N) (list N) := <[str "F" := str "F[+F]F[-F]F"]> ∅ in
  let expanded := expand (str "F") rules 2 in
  length expanded = 61%nat
  /\ length (interpret (num := term) expanded
               (TurtleOptions (Some (TLit 5)) (Some (TLit 25)))) = 25%nat.
Proof. vm_compute. split; reflexivity. Qed.

(** Stopping alone does halt an animation: its waiting tick only restores
    the context. *)
Example stop_halts_pending_tick (a0 a1 : segment term) :
  canvas (run [StartAnimation [a0; a1] (AnimOptions (Some 1%Z) None);
               StopAnimation; Fire 0])
  = [ClearSurface; Save; SetPen; BeginPath; MoveTo (x1 a0) (y1 a0);
     LineTo (x2 a0) (y2 a0); Stroke; Restore].
Proof. reflexivity. Qed.

(** ** Further properties of the expander *)

Section ExpanderMore.

Variable rules : gmap (list N) (list N).

Lemma rewrite_n_succ (n : nat) (s : list N) :
  rewrite_n rules (S n) s = rewrite_once rules (rewrite_n rules n s).
Proof. reflexivity. Qed.

Lemma symbols_nonempty (s : list N) (ch : list N) :
  In ch (symbols s) -> (1 <= length ch)%nat.
Proof.
  induction s as [| c | c d s IH1 IH2] using symbols_ind.
  - intros [].
  - intros [<-|[]]. cbn. lia.
  - rewrite symbols_cons_cons.
    destruct (is_high_surrogate c && is_low_surrogate d);
      (intros [<-|Hin]; [cbn; lia | auto]).
Qed.

Lemma rewrite_once_bmp (s : list N) :
  bmp s -> rewrite_once rules s = flat_map (fun c => replacement_of rules [c]) s.
Proof.
  intros Hs. unfold rewrite_once. rewrite (symbols_bmp s Hs).
  rewrite map_map. now rewrite flat_map_concat_map.
Qed.

Lemma bmp_app (s t : list N) : bmp (s ++ t) <-> bmp s /\ bmp t.
Proof. unfold bmp. rewrite forallb_app. apply andb_true_iff. Qed.

Hypothesis rules_bmp : forall k v, rules !! k = Some v -> bmp v.

Lemma rewrite_once_keeps_bmp (s : list N) : bmp s -> bmp (rewrite_once rules s).
Proof using rules_bmp.
  intros Hs. rewrite (rewrite_once_bmp s Hs).
  induction s as [|c s IH]; [reflexivity|].
  change (c :: s) with ([c] ++ s) in Hs. apply bmp_app in Hs as [Hc Hs].
  cbn [flat_map]. apply bmp_app. split; [|now apply IH].
  unfold replacement_of. destruct (rules !! [c]) as [v|] eqn:Hv; cbn [default].
  - now apply rules_bmp with [c].
  - exact Hc.
Qed.

Lemma rewrite_n_keeps_bmp (n : nat) (s : list N) : bmp s -> bmp (rewrite_n rules n s).
Proof using rules_bmp.
  intros Hs. induction n as [|n IH]; [exact Hs|].
  rewrite rewrite_n_succ. now apply rewrite_once_keeps_bmp.
Qed.

Lemma rewrite_n_app_bmp (n : nat) (s t : list N) :
  bmp s -> bmp t ->
  rewrite_n rules n (s ++ t) = rewrite_n rules n s ++ rewrite_n rules n t.
Proof using rules_bmp.
  intros Hs Ht. induction n as [|n IH]; [reflexivity|].
  rewrite !rewrite_n_succ, IH.
  pose proof (rewrite_n_keeps_bmp n s Hs) as Hs'.
  pose proof (rewrite_n_keeps_bmp n t Ht) as Ht'.
  rewrite !rewrite_once_bmp; [apply flat_map_app | assumption..|].
  now apply bmp_app.
Qed.

End ExpanderMore.

(** X1. Expanding in two stages is expanding once with the iteration
    counts added: [expand(expand(a, r, m), r, n) = expand(a, r, m + n)]. *)
Theorem expand_add (axiom : list N) (rules : gmap (list N) (list N)) (m n : nat) :
  expand (expand axiom rules (Z.of_nat m)) rules (Z.of_nat n)
  = expand axiom rules (Z.of_nat (m + n)).
Proof.
  rewrite !expand_spec, !Nat2Z.id. unfold rewrite_n.
  rewrite (Nat.add_comm m n). symmetry. apply Nat.iter_add.
Qed.

(** X2. The rewriting is context free: when the two strings and all the
    replacements are free of surrogates, expanding a concatenation gives
    the concatenation of the expansions. *)
Theorem expand_app (s t : list N) (rules : gmap (list N) (list N)) (n : nat) :
  bmp s -> bmp t -> (forall k v, rules !! k = Some v -> bmp v) ->
  expand (s ++ t) rules (Z.of_nat n)
  = expand s rules (Z.of_nat n) ++ expand t rules (Z.of_nat n).
Proof.
  intros Hs Ht Hrules. rewrite !expand_spec, !Nat2Z.id.
  now apply rewrite_n_app_bmp.
Qed.

Lemma expand_app_witness :
  expand (str "A" ++ str "B") algae_rules 3
  = expand (str "A") algae_rules 3 ++ expand (str "B") algae_rules 3.
Proof.
  apply (expand_app (str "A") (str "B") algae_rules 3); try reflexivity.
  intros k v Hkv. unfold algae_rules in Hkv.
  rewrite !lookup_insert in Hkv. repeat case_decide; simplify_eq; reflexivity.
Defined.

(** X3. A string none of whose symbols has a rule is a fixed point:
    [expand] returns it unchanged for every iteration count. *)
Theorem expand_inert (s : list N) (rules : gmap (list N) (list N)) (n : nat) :
  (forall ch, In ch (symbols s) -> rules !! ch = None) ->
  expand s rules (Z.of_nat n) = s.
Proof.
  intros Hinert. rewrite expand_spec, Nat2Z.id.
  assert (Hone : rewrite_once rules s = s).
  { unfold rewrite_once. rewrite (map_ext_in _ (fun ch => ch)).
    - rewrite map_id. apply symbols_concat.
    - intros ch Hch. unfold replacement_of. now rewrite (Hinert ch Hch). }
  induction n as [|n IH]; [reflexivity|].
  rewrite rewrite_n_succ, IH. exact Hone.
Qed.

Lemma expand_inert_witness : expand (str "[+-]") algae_rules 4 = str "[+-]".
Proof.
  apply (expand_inert (str "[+-]") algae_rules 4).
  intros ch Hch. vm_compute in Hch.
  destruct Hch as [<-|[<-|[<-|[<-|[]]]]]; reflexivity.
Defined.

(** X4. Growth is at most geometric: when no replacement is longer than
    [K >= 1] code units, [n] iterations multiply the length by at most
    [K ^ n]. *)
Theorem expand_length_bound (axiom : list N) (rules : gmap (list N) (list N))
    (K n : nat) :
  (1 <= K)%nat ->
  (forall k v, rules !! k = Some v -> (length v <= K)%nat) ->
  (length (expand axiom rules (Z.of_nat n)) <= K ^ n * length axiom)%nat.
Proof.
  intros HK Hrules. rewrite expand_spec, Nat2Z.id.
  assert (Hone : forall s, (length (rewrite_once rules s) <= K * length s)%nat).
  { intros s. unfold rewrite_once.
    rewrite <- (symbols_concat s) at 2.
    pose proof (symbols_nonempty s) as Hne.
    induction (symbols s) as [|ch l IH]; [cbn; lia|].
    cbn [map concat]. rewrite !length_app.
    assert (length (replacement_of rules ch) <= K * length ch)%nat.
    { specialize (Hne ch (or_introl eq_refl)).
      unfold replacement_of. destruct (rules !! ch) as [v|] eqn:Hv; cbn.
      - specialize (Hrules ch v Hv). nia.
      - nia. }
    specialize (IH (fun c Hc => Hne c (or_intror Hc))). nia. }
  induction n as [|n IH]; [cbn; lia|].
  rewrite rewrite_n_succ. specialize (Hone (rewrite_n rules n axiom)).
  rewrite Nat.pow_succ_r'. nia.
Qed.

Lemma expand_length_bound_witness :
  (length (expand (str "A") algae_rules 4) <= 2 ^ 4 * length (str "A"))%nat.
Proof.
  apply (expand_length_bound (str "A") algae_rules 2 4); [lia|].
  intros k v Hkv. unfold algae_rules in Hkv.
  rewrite !lookup_insert in Hkv. repeat case_decide; simplify_eq; cbn; lia.
Defined.

(** ** Further properties of the parser *)

Section TrimFacts.

Lemma trimStart_nonws (c : N) (r : list N) :
  is_trimmable c = false -> trimStart (c :: r) = c :: r.
Proof. intros Hc. cbn [trimStart]. now rewrite Hc. Qed.

Lemma trimStart_head (s : list N) (c : N) (r : list N) :
  trimStart s = c :: r -> is_trimmable c = false.
Proof.
  induction s as [|d s IH]; cbn [trimStart]; [discriminate|].
  destruct (is_trimmable d) eqn:Hd; [exact IH|].
  intros [= <- _]. exact Hd.
Qed.

Lemma trimStart_idem (s : list N) : trimStart (trimStart s) = trimStart s.
Proof.
  destruct (trimStart s) as [|c r] eqn:E; [reflexivity|].
  apply trimStart_nonws. now apply trimStart_head with s r.
Qed.

Lemma trimStart_app (s t : list N) :
  trimStart (s ++ t)
  = match trimStart s with
    | [] => trimStart t
    | _ :: _ => trimStart s ++ t
    end.
Proof.
  induction s as [|c s IH]; cbn [app trimStart]; [reflexivity|].
  destruct (is_trimmable c); [exact IH | reflexivity].
Qed.

Lemma trimStart_In (c : N) (s : list N) : In c (trimStart s) -> In c s.
Proof.
  induction s as [|d s IH]; cbn [trimStart]; [auto|].
  destruct (is_trimmable d); [intros Hc; right; auto | auto].
Qed.

Lemma trimEnd_cons (c : N) (r : list N) :
  trimEnd (c :: r)
  = match trimEnd r with
    | [] => if is_trimmable c then [] else [c]
    | _ :: _ => c :: trimEnd r
    end.
Proof.
  unfold trimEnd. cbn [rev]. rewrite trimStart_app.
  destruct (trimStart (rev r)) as [|d l] eqn:E.
  - cbn [rev trimStart]. now destruct (is_trimmable c).
  - rewrite rev_app_distr. cbn [rev app].
    destruct (rev l ++ [d]) as [|e m] eqn:E2; [|reflexivity].
    now destruct (rev l).
Qed.

Lemma trimEnd_nonws (c : N) (r : list N) :
  is_trimmable c = false -> trimEnd (c :: r) = c :: trimEnd r.
Proof. intros Hc. rewrite trimEnd_cons, Hc. now destruct (trimEnd r). Qed.

Lemma trimEnd_In (c : N) (s : list N) : In c (trimEnd s) -> In c s.
Proof.
  unfold trimEnd. intros Hc. apply in_rev, trimStart_In in Hc. now apply in_rev.
Qed.

Lemma trimEnd_idem (s : list N) : trimEnd (trimEnd s) = trimEnd s.
Proof. unfold trimEnd. now rewrite rev_involutive, trimStart_idem. Qed.

Lemma trim_nonws (c : N) (r : list N) :
  is_trimmable c = false -> trim (c :: r) = c :: trimEnd r.
Proof. intros Hc. unfold trim. now rewrite trimStart_nonws, trimEnd_nonws. Qed.

Lemma trim_head (s : list N) (c : N) (r : list N) :
  trim s = c :: r -> is_trimmable c = false.
Proof.
  unfold trim. destruct (trimStart s) as [|d l] eqn:E; [discriminate|].
  pose proof (trimStart_head s d l E) as Hd.
  rewrite trimEnd_nonws by exact Hd. now intros [= <- _].
Qed.

Lemma trim_In (c : N) (s : list N) : In c (trim s) -> In c s.
Proof. unfold trim. intros Hc. now apply trimStart_In, trimEnd_In. Qed.

Lemma trim_idem (s : list N) : trim (trim s) = trim s.
Proof.
  destruct (trim s) as [|c r] eqn:E; [reflexivity|].
  pose proof (trim_head s c r E) as Hc.
  rewrite trim_nonws by exact Hc. f_equal.
  assert (Hend : trimEnd (c :: r) = c :: r).
  { rewrite <- E. unfold trim. apply trimEnd_idem. }
  rewrite trimEnd_nonws in Hend by exact Hc. now injection Hend.
Qed.

Lemma trimStart_trimEnd (s : list N) : trimStart (trimEnd s) = trimEnd (trimStart s).
Proof.
  induction s as [|c s IH]; [reflexivity|].
  destruct (is_trimmable c) eqn:Hc.
  - rewrite trimEnd_cons, Hc. cbn [trimStart]. rewrite Hc, <- IH.
    destruct (trimEnd s) as [|d l]; [reflexivity|].
    cbn [trimStart]. now rewrite Hc.
  - rewrite trimStart_nonws by exact Hc.
    rewrite trimEnd_nonws by exact Hc. now apply trimStart_nonws.
Qed.

Lemma trim_trimEnd (s : list N) : trim (trimEnd s) = trim s.
Proof. unfold trim. now rewrite trimStart_trimEnd, trimEnd_idem. Qed.

Lemma split_without_separator (sep : N) (s : list N) :
  ~ In sep s -> split sep s = [s].
Proof.
  induction s as [|c s IH]; intros Hs; [reflexivity|].
  cbn [split]. destruct (N.eqb_spec c sep) as [->|Hne].
  - exfalso. apply Hs. now left.
  - rewrite IH; [reflexivity|]. intros Hin. apply Hs. now right.
Qed.

Lemma split_pieces (sep : N) (s : list N) :
  forall piece, In piece (split sep s) -> ~ In sep piece.
Proof.
  induction s as [|c s IH]; intros piece.
  - intros [<-|[]] [].
  - cbn [split]. destruct (N.eqb_spec c sep) as [->|Hne].
    + intros [<-|Hin]; [intros [] | now apply IH].
    + destruct (split sep s) as [|p ps].
      * intros [<-|[]] [E|[]]. congruence.
      * intros [<-|Hin].
        -- intros [E|Hin]; [congruence|]. apply (IH p); [now left | exact Hin].
        -- apply IH. now right.
Qed.

End TrimFacts.

Section ParserMore.

Lemma before_separator_free (line : list N) : ~ In EQUALS (before_separator line).
Proof.
  induction line as [|c line IH]; cbn [before_separator]; [intros []|].
  destruct (N.eqb_spec c EQUALS) as [->|Hne]; [intros []|].
  intros [E|Hin]; [congruence | auto].
Qed.

Lemma after_separator_In (c : N) (line : list N) :
  In c (after_separator line) -> In c line.
Proof.
  induction line as [|d line IH]; cbn [after_separator]; [auto|].
  destruct (d =? EQUALS)%N; intros Hc; right; auto.
Qed.

(** Where a rule line comes from. *)
Lemma rule_lines_In (text line : list N) :
  In line (rule_lines text) ->
  exists raw, In raw (split LF text) /\ line = trim raw
              /\ line <> [] /\ startsWith line HASH = false.
Proof.
  unfold rule_lines, is_rule_line. intros Hl.
  apply filter_In in Hl as [Hl Hok].
  apply in_map_iff in Hl as (raw & <- & Hraw).
  apply andb_true_iff in Hok as [Ht Hs].
  exists raw. repeat split; auto.
  - intros E. rewrite E in Ht. discriminate.
  - now destruct (startsWith (trim raw) HASH).
Qed.

Lemma last_rule_for_Some (k v : list N) (lines : list (list N)) :
  last_rule_for k lines = Some v ->
  exists line, In line lines /\ lhs_of line = k /\ rhs_of line = v.
Proof.
  induction lines as [|line lines IH]; cbn [last_rule_for]; [discriminate|].
  destruct (last_rule_for k lines) as [w|].
  - intros [= ->]. destruct (IH eq_refl) as (l & Hl & Hk & Hv).
    exists l. split; [now right | auto].
  - case_bool_decide as Hk; [|discriminate].
    intros [= <-]. exists line. split; [now left | auto].
Qed.

Lemma last_rule_for_defined (line : list N) (l1 l2 : list (list N)) :
  last_rule_for (lhs_of line) (l1 ++ line :: l2) <> None.
Proof.
  rewrite last_rule_for_app. cbn [last_rule_for].
  destruct (last_rule_for (lhs_of line) l2); [discriminate|].
  now rewrite bool_decide_eq_true_2.
Qed.

(** Comment lines play no part in the loop. *)
Lemma parse_lines_skips_comments (lines : list (list N))
    (rules : gmap (list N) (list N)) :
  parse_lines lines rules
  = parse_lines (List.filter (fun l => negb (startsWith l HASH)) lines) rules.
Proof.
  revert rules; induction lines as [|line lines IH]; intros rules; [reflexivity|].
  cbn [List.filter]. destruct (startsWith line HASH) eqn:Hc; cbn [negb].
  - rewrite parse_lines_cons, Hc. apply IH.
  - rewrite !parse_lines_cons, Hc.
    destruct (malformed line); [reflexivity | apply IH].
Qed.

Lemma parseRules_rule_lines (text : list N) :
  parseRules text = parse_lines (rule_lines text) ∅.
Proof.
  unfold parseRules. rewrite rule_lines_text_lines.
  apply parse_lines_skips_comments.
Qed.

End ParserMore.

(** X5. The table [parseRules] returns is well shaped: every key is one
    character that is neither whitespace nor [=] nor [#], and every
    replacement is trimmed and free of line feeds. *)
Theorem parsed_table_shape (text : list N) (rules : gmap (list N) (list N))
    (k v : list N) :
  parseRules text = Return rules ->
  rules !! k = Some v ->
  (exists c, k = [c] /\ is_trimmable c = false /\ c <> EQUALS /\ c <> HASH)
  /\ trim v = v /\ ~ In LF v.
Proof.
  intros Hparse Hkv.
  pose proof (parseRules_spec text) as H. rewrite Hparse in H.
  destruct H as [Hwf Hr]. rewrite Hr in Hkv.
  apply last_rule_for_Some in Hkv as (line & Hline & Hk & Hv).
  specialize (Hwf line Hline).
  apply rule_lines_In in Hline as (raw & Hraw & Htrim & Hne & Hhash).
  unfold malformed in Hwf. apply orb_false_iff in Hwf as [_ Hlen].
  apply negb_false_iff, Nat.eqb_eq in Hlen. rewrite Hk in Hlen.
  destruct k as [|c [|? ?]]; try discriminate. clear Hlen.
  split; [exists c; split; [reflexivity|] | split].
  - unfold lhs_of in Hk. repeat split.
    + now apply trim_head with (before_separator line) [].
    + intros ->. apply (before_separator_free line), trim_In.
      rewrite Hk. now left.
    + intros ->. destruct line as [|h rest]; [congruence|].
      assert (Hh : is_trimmable h = false)
        by (symmetry in Htrim; now apply trim_head with raw rest).
      cbn [startsWith] in Hhash. cbn [before_separator] in Hk.
      destruct (h =? EQUALS)%N; [discriminate|].
      rewrite trim_nonws in Hk by exact Hh.
      injection Hk as -> _. now rewrite N.eqb_refl in Hhash.
  - rewrite <- Hv. apply trim_idem.
  - rewrite <- Hv. intros Hin. apply trim_In, after_separator_In in Hin.
    rewrite Htrim in Hin. apply trim_In in Hin.
    now apply (split_pieces LF text raw Hraw).
Qed.

Lemma parsed_table_shape_witness :
  (exists c, str "A" = [c] /\ is_trimmable c = false /\ c <> EQUALS /\ c <> HASH)
  /\ trim (str "AB") = str "AB" /\ ~ In LF (str "AB").
Proof.
  apply (parsed_table_shape (str "A=AB" ++ [LF] ++ str "B=A") algae_rules
           (str "A") (str "AB")); reflexivity.
Defined.

(** X6. When [parseRules] throws, the error is that of the first malformed
    rule line: every rule line before it is well formed, and the error
    carries the line when [=] is missing and the trimmed left-hand side
    otherwise. *)
Theorem parseRules_reports_first_malformed (text : list N) (e : error) :
  parseRules text = Throw e ->
  exists earlier line later,
    rule_lines text = earlier ++ line :: later
    /\ (forall l, In l earlier -> malformed l = false)
    /\ malformed line = true
    /\ e = (if has_separator line then BadRuleLhs (lhs_of line)
            else BadRuleLine line).
Proof.
  intros Hparse. pose proof (parseRules_spec text) as H.
  rewrite Hparse in H. exact H.
Qed.

Lemma parseRules_reports_first_malformed_witness :
  exists earlier line later,
    rule_lines (str "A=AB" ++ [LF] ++ str "B" ++ [LF] ++ str "CD=E")
    = earlier ++ line :: later
    /\ (forall l, In l earlier -> malformed l = false)
    /\ malformed line = true
    /\ BadRuleLine (str "B")
       = (if has_separator line then BadRuleLhs (lhs_of line)
          else BadRuleLine line).
Proof.
  apply (parseRules_reports_first_malformed
           (str "A=AB" ++ [LF] ++ str "B" ++ [LF] ++ str "CD=E")
           (BadRuleLine (str "B"))).
  reflexivity.
Defined.

(** X7. [parseRules] returns the empty table exactly for a text without
    rule lines: the empty text, blank lines and comments only. *)
Theorem parseRules_empty_iff (text : list N) :
  parseRules text = Return ∅ <-> rule_lines text = [].
Proof.
  pose proof (parseRules_spec text) as H. split.
  - intros Hparse. rewrite Hparse in H. destruct H as [_ Hr].
    destruct (rule_lines text) as [|line lines]; [reflexivity|].
    exfalso. apply (last_rule_for_defined line [] lines).
    cbn [app]. rewrite <- Hr. apply lookup_empty.
  - intros Hnone. rewrite Hnone in H.
    destruct (parseRules text) as [r|e].
    + destruct H as [_ Hr]. f_equal. apply map_eq. intros k.
      rewrite Hr. cbn. now rewrite lookup_empty.
    + destruct H as (l1 & line & l2 & Heq & _). now destruct l1.
Qed.

(** X8. One well-formed line defines one rule: for a character [c] that is
    neither whitespace nor [#] nor [=], and a text [v] without line feed,
    the text [c=v] parses to the table mapping [c] to [v] trimmed; a
    further [=] in [v] belongs to the replacement. *)
Theorem parseRules_single_rule (c : N) (v : list N) :
  is_trimmable c = false -> c <> HASH -> c <> EQUALS -> ~ In LF v ->
  parseRules (c :: EQUALS :: v) = Return (<[[c] := trim v]> ∅).
Proof.
  intros Hws Hhash Heq Hlf.
  assert (Hsplit : split LF (c :: EQUALS :: v) = [c :: EQUALS :: v]).
  { apply split_without_separator. intros [E|[E|Hin]]; try discriminate; auto.
    subst c. discriminate. }
  assert (Hline : trim (c :: EQUALS :: v) = c :: EQUALS :: trimEnd v).
  { rewrite trim_nonws by exact Hws. now rewrite trimEnd_nonws. }
  unfold parseRules, text_lines. rewrite Hsplit. cbn [map]. rewrite Hline.
  cbn [List.filter truthy]. rewrite parse_lines_cons.
  cbn [startsWith]. apply N.eqb_neq in Hhash, Heq. rewrite Hhash.
  assert (Hlhs : lhs_of (c :: EQUALS :: trimEnd v) = [c]).
  { unfold lhs_of. cbn [before_separator]. rewrite Heq, N.eqb_refl.
    now rewrite trim_nonws. }
  assert (Hrhs : rhs_of (c :: EQUALS :: trimEnd v) = trim v).
  { unfold rhs_of. cbn [after_separator]. rewrite Heq, N.eqb_refl.
    apply trim_trimEnd. }
  unfold malformed, has_separator. cbn [existsb]. rewrite N.eqb_refl, Hlhs, Hrhs.
  rewrite orb_true_r. reflexivity.
Qed.

Lemma parseRules_single_rule_witness :
  parseRules (0x46%N :: EQUALS :: str " F=[F] ")
  = Return (<[[0x46%N] := trim (str " F=[F] ")]> ∅).
Proof.
  apply (parseRules_single_rule 0x46%N (str " F=[F] ")).
  - reflexivity.
  - discriminate.
  - discriminate.
  - intros Hin. vm_compute in Hin. intuition discriminate.
Defined.

(** X9. Blank lines and comments are ignored: two texts with the same rule
    lines parse alike, to the same table or the same error. *)
Theorem parseRules_ignores_comments (text1 text2 : list N) :
  rule_lines text1 = rule_lines text2 -> parseRules text1 = parseRules text2.
Proof. intros Heq. now rewrite !parseRules_rule_lines, Heq. Qed.

Lemma parseRules_ignores_comments_witness :
  parseRules (str "# algae" ++ [LF] ++ str "A=AB" ++ [LF] ++ [LF] ++ str " B = A ")
  = parseRules (str "A=AB" ++ [LF] ++ str "B = A").
Proof.
  apply (parseRules_ignores_comments
           (str "# algae" ++ [LF] ++ str "A=AB" ++ [LF] ++ [LF] ++ str " B = A ")
           (str "A=AB" ++ [LF] ++ str "B = A")).
  reflexivity.
Defined.

(** ** Further properties of the turtle interpreter *)

(** The local variables of the loop of [interpret], as one value. *)
Record loop_state (num : Type) : Type := LoopState {
  ls_x : num; ls_y : num; ls_theta : num;
  ls_stack : list (saved num); ls_segments : list (segment num)
}.
Arguments LoopState {num} ls_x ls_y ls_theta ls_stack ls_segments.
Arguments ls_x {num} _.
Arguments ls_y {num} _.
Arguments ls_theta {num} _.
Arguments ls_stack {num} _.
Arguments ls_segments {num} _.

Section TurtleLoop.

Context {num : Type} `{JsNumber num}.

Variables stepLen angleRad : num.

(** One turn of the loop of [interpret]. *)
Definition loop_step (st : loop_state num) (ch : list N) : loop_state num :=
  let '(LoopState x y theta stack segments) := st in
  if draws ch then
    let nx := add x (mul stepLen (cos theta)) in
    let ny := add y (mul stepLen (sin theta)) in
    LoopState nx ny theta stack (segments ++ [Segment x y nx ny])
  else if is_sym ch "+" then LoopState x y (add theta angleRad) stack segments
  else if is_sym ch "-" then LoopState x y (sub theta angleRad) stack segments
  else if is_sym ch "[" then
    LoopState x y theta (stack ++ [Saved x y theta]) segments
  else if is_sym ch "]" then
    match array_pop stack with
    | (Some state, stack') =>
        LoopState (saved_x state) (saved_y state) (saved_theta state) stack' segments
    | (None, stack') => LoopState x y theta stack' segments
    end
  else st.

(** The loop is the iteration of its turns. *)
Lemma interpret_loop_fold (syms : list (list N)) :
  forall x y theta stack segments,
  interpret_loop stepLen angleRad syms x y theta stack segments
  = ls_segments (fold_left loop_step syms (LoopState x y theta stack segments)).
Proof.
  induction syms as [|ch rest IH]; intros x y theta stack segments; [reflexivity|].
  cbn [interpret_loop fold_left]. unfold loop_step at 2. fold (draws ch).
  destruct (draws ch); [apply IH|].
  destruct (is_sym ch "+"); [apply IH|].
  destruct (is_sym ch "-"); [apply IH|].
  destruct (is_sym ch "["); [apply IH|].
  destruct (is_sym ch "]"); [|apply IH].
  destruct (array_pop stack) as [[state|] stack']; apply IH.
Qed.

Lemma array_pop_snoc {A} (a : list A) (v : A) : array_pop (a ++ [v]) = (Some v, a).
Proof.
  unfold array_pop. rewrite rev_app_distr. cbn [rev app].
  now rewrite rev_involutive.
Qed.

Lemma array_pop_Some {A} (a a' : list A) (v : A) :
  array_pop a = (Some v, a') -> a = a' ++ [v].
Proof.
  destruct a as [|x a0] using rev_ind; [discriminate|].
  rewrite array_pop_snoc. now intros [= -> ->].
Qed.

Lemma array_pop_None {A} (a a' : list A) :
  array_pop a = (None, a') -> a = [] /\ a' = [].
Proof.
  destruct a as [|x a0] using rev_ind; [now intros [= <-]|].
  rewrite array_pop_snoc. discriminate.
Qed.

(** An invariant of the local variables kept by every turn on an allowed
    symbol holds at the end of the loop. *)
Lemma loop_invariant (allowed : list N -> Prop) (I : loop_state num -> Prop) :
  (forall st ch, allowed ch -> I st -> I (loop_step st ch)) ->
  forall syms st,
    Forall allowed syms -> I st -> I (fold_left loop_step syms st).
Proof.
  intros Hstep syms. induction syms as [|ch rest IH]; intros st Hall Hst.
  - exact Hst.
  - inversion Hall; subst. cbn [fold_left]. apply IH; auto.
Qed.

(** Segments already emitted are only ever added to. *)
Lemma loop_step_acc (ch : list N) :
  forall x y theta stack segments,
  let st := loop_step (LoopState x y theta stack []) ch in
  loop_step (LoopState x y theta stack segments) ch
  = LoopState (ls_x st) (ls_y st) (ls_theta st) (ls_stack st)
      (segments ++ ls_segments st).
Proof.
  intros x y theta stack segments. cbv zeta. unfold loop_step.
  destruct (draws ch); [reflexivity|].
  destruct (is_sym ch "+"); [cbn; now rewrite app_nil_r|].
  destruct (is_sym ch "-"); [cbn; now rewrite app_nil_r|].
  destruct (is_sym ch "["); [cbn; now rewrite app_nil_r|].
  destruct (is_sym ch "]"); [|cbn; now rewrite app_nil_r].
  destruct (array_pop stack) as [[state|] stack']; cbn; now rewrite app_nil_r.
Qed.

Lemma fold_loop_step_acc (syms : list (list N)) :
  forall x y theta stack segments,
  let st := fold_left loop_step syms (LoopState x y theta stack []) in
  fold_left loop_step syms (LoopState x y theta stack segments)
  = LoopState (ls_x st) (ls_y st) (ls_theta st) (ls_stack st)
      (segments ++ ls_segments st).
Proof.
  induction syms as [|ch rest IH]; intros x y theta stack segments; cbv zeta.
  - cbn. now rewrite app_nil_r.
  - cbn [fold_left]. rewrite loop_step_acc. cbv zeta.
    destruct (loop_step (LoopState x y theta stack []) ch) as [x' y' theta' stack' out].
    cbn [ls_x ls_y ls_theta ls_stack ls_segments].
    rewrite IH. rewrite (IH _ _ _ _ out). cbv zeta.
    cbn [ls_x ls_y ls_theta ls_stack ls_segments]. now rewrite app_assoc.
Qed.

End TurtleLoop.

Section TurtleGeometry.

Context {num : Type} `{JsNumber num}.

Variables stepLen angleRad : num.

(** A point is anchored in a drawing when it is the origin or the end of
    one of its segments. *)
Definition anchored (segs : list (segment num)) (px py : num) : Prop :=
  (px = lit 0 /\ py = lit 0)
  \/ exists s, In s segs /\ px = x2 s /\ py = y2 s.

Lemma anchored_app (segs more : list (segment num)) (px py : num) :
  anchored segs px py -> anchored (segs ++ more) px py.
Proof.
  intros [Ho|(s & Hs & Hp)]; [now left|].
  right. exists s. split; [apply in_or_app; now left | exact Hp].
Qed.

Definition connected_inv (st : loop_state num) : Prop :=
  (forall pre s post, ls_segments st = pre ++ s :: post ->
     anchored pre (x1 s) (y1 s))
  /\ anchored (ls_segments st) (ls_x st) (ls_y st)
  /\ Forall (fun sv => anchored (ls_segments st) (saved_x sv) (saved_y sv))
       (ls_stack st).

Lemma connected_inv_step (st : loop_state num) (ch : list N) :
  connected_inv st -> connected_inv (loop_step stepLen angleRad st ch).
Proof.
  destruct st as [x y theta stack segs]. intros (Hcon & Hpos & Hstack).
  cbn [ls_segments ls_x ls_y ls_stack] in *. unfold loop_step.
  destruct (draws ch).
  { repeat split; cbn [ls_segments ls_x ls_y ls_stack].
    - intros pre s post Heq.
      destruct post as [|e post0 _] using rev_ind.
      + apply app_inj_tail in Heq as [-> <-]. exact Hpos.
      + change (pre ++ s :: post0 ++ [e]) with (pre ++ (s :: post0) ++ [e]) in Heq.
        rewrite app_assoc in Heq. apply app_inj_tail in Heq as [Heq _].
        now apply Hcon with post0.
    - right. eexists. split; [apply in_or_app; right; now left|]. now cbn.
    - eapply Forall_impl; [exact Hstack|]. intros sv. apply anchored_app. }
  destruct (is_sym ch "+"); [now repeat split|].
  destruct (is_sym ch "-"); [now repeat split|].
  destruct (is_sym ch "[").
  { repeat split; auto. cbn [ls_stack ls_segments].
    apply Forall_app. split; [exact Hstack|]. now constructor. }
  destruct (is_sym ch "]"); [|now repeat split].
  destruct (array_pop stack) as [[sv|] stack'] eqn:Hpop.
  - apply array_pop_Some in Hpop. subst stack.
    apply Forall_app in Hstack as [Hstack' Hsv]. inversion Hsv; subst.
    now repeat split.
  - apply array_pop_None in Hpop as [-> ->]. now repeat split.
Qed.

(** Without [\]] the position is the end of the last segment. *)
Definition chain_inv (st : loop_state num) : Prop :=
  (forall pre s s' post, ls_segments st = pre ++ s :: s' :: post ->
     x1 s' = x2 s /\ y1 s' = y2 s)
  /\ (forall pre s, ls_segments st = pre ++ [s] ->
        ls_x st = x2 s /\ ls_y st = y2 s).

Lemma chain_inv_step (st : loop_state num) (ch : list N) :
  ch <> str "]" -> chain_inv st -> chain_inv (loop_step stepLen angleRad st ch).
Proof.
  destruct st as [x y theta stack segs]. intros Hch (Hchain & Hlast).
  cbn [ls_segments ls_x ls_y] in *. unfold loop_step.
  destruct (draws ch).
  { split; cbn [ls_segments ls_x ls_y].
    - intros pre s s' post Heq.
      destruct post as [|e post0 _] using rev_ind.
      + change (pre ++ [s; s']) with (pre ++ [s] ++ [s']) in Heq.
        rewrite app_assoc in Heq. apply app_inj_tail in Heq as [Heq <-].
        cbn [x1 y1]. now apply Hlast in Heq.
      + change (pre ++ s :: s' :: post0 ++ [e])
          with (pre ++ (s :: s' :: post0) ++ [e]) in Heq.
        rewrite app_assoc in Heq. apply app_inj_tail in Heq as [Heq _].
        now apply Hchain with pre post0.
    - intros pre s Heq. apply app_inj_tail in Heq as [_ <-]. now cbn. }
  destruct (is_sym ch "+"); [now split|].
  destruct (is_sym ch "-"); [now split|].
  destruct (is_sym ch "["); [now split|].
  unfold is_sym. rewrite bool_decide_eq_false_2 by exact Hch. now split.
Qed.

(** Every segment is one step along a reachable heading. *)
Definition one_step (s : segment num) : Prop :=
  exists theta, heading_reachable angleRad theta
    /\ x2 s = add (x1 s) (mul stepLen (cos theta))
    /\ y2 s = add (y1 s) (mul stepLen (sin theta)).

Definition heading_inv (st : loop_state num) : Prop :=
  heading_reachable angleRad (ls_theta st)
  /\ Forall (fun sv => heading_reachable angleRad (saved_theta sv)) (ls_stack st)
  /\ Forall one_step (ls_segments st).

Lemma heading_inv_step (st : loop_state num) (ch : list N) :
  heading_inv st -> heading_inv (loop_step stepLen angleRad st ch).
Proof.
  destruct st as [x y theta stack segs]. intros (Hth & Hstack & Hsegs).
  cbn [ls_theta ls_stack ls_segments] in *. unfold loop_step.
  destruct (draws ch).
  { repeat split; auto. cbn [ls_segments]. apply Forall_app. split; [exact Hsegs|].
    constructor; [|constructor]. exists theta. now repeat split. }
  destruct (is_sym ch "+"); [repeat split; auto; now constructor|].
  destruct (is_sym ch "-"); [repeat split; auto; now constructor|].
  destruct (is_sym ch "[").
  { repeat split; auto. cbn [ls_stack]. apply Forall_app. split; [exact Hstack|].
    now constructor. }
  destruct (is_sym ch "]"); [|now repeat split].
  destruct (array_pop stack) as [[sv|] stack'] eqn:Hpop.
  - apply array_pop_Some in Hpop. subst stack.
    apply Forall_app in Hstack as [Hstack' Hsv]. inversion Hsv; subst.
    now repeat split.
  - apply array_pop_None in Hpop as [-> ->]. now repeat split.
Qed.

End TurtleGeometry.

Lemma symbols_In (s ch : list N) (c : N) :
  In ch (symbols s) -> In c ch -> In c s.
Proof.
  intros Hch Hc. rewrite <- (symbols_concat s). apply in_concat. eauto.
Qed.

(** X10. The drawing is connected: every segment [interpret] emits starts
    at the origin or at the end of a segment emitted before it. *)
Theorem interpret_connected {num : Type} `{JsNumber num}
    (lsys : list N) (options : turtle_options num)
    (pre : list (segment num)) (s : segment num) (post : list (segment num)) :
  interpret lsys options = pre ++ s :: post ->
  (x1 s = lit 0 /\ y1 s = lit 0)
  \/ exists s', In s' pre /\ x1 s = x2 s' /\ y1 s = y2 s'.
Proof.
  unfold interpret. rewrite interpret_loop_fold.
  set (stepLen := default (lit 10) (step options)).
  set (angleRad := to_radians (default (lit 25) (angleDeg options))).
  intros Heq.
  assert (Hinv : connected_inv
            (fold_left (loop_step stepLen angleRad) (symbols lsys)
               (LoopState (lit 0) (lit 0) initial_heading [] []))).
  { apply (loop_invariant stepLen angleRad (fun _ => True)).
    - intros st ch _. apply connected_inv_step.
    - apply Forall_forall. auto.
    - repeat split; cbn.
      + intros p a q E. now destruct p.
      + now left.
      + constructor. }
  destruct Hinv as (Hcon & _). exact (Hcon pre s post Heq).
Qed.

Lemma interpret_connected_witness :
  let third :=
    nth 2 (interpret (num := term) (str "F[+F]F")
             (TurtleOptions (Some (TLit 1)) (Some (TLit 90))))
      (Segment TPi TPi TPi TPi) in
  (x1 third = lit 0 /\ y1 third = lit 0)
  \/ exists s',
       In s' (firstn 2 (interpret (num := term) (str "F[+F]F")
                          (TurtleOptions (Some (TLit 1)) (Some (TLit 90)))))
       /\ x1 third = x2 s' /\ y1 third = y2 s'.
Proof.
  cbv zeta.
  apply (interpret_connected (str "F[+F]F")
           (TurtleOptions (Some (TLit 1)) (Some (TLit 90)))
           _ _ []).
  reflexivity.
Defined.

(** X11. Without [\]] in the input the drawing is one polyline: every
    segment starts where the one before it ends. *)
Theorem interpret_polyline {num : Type} `{JsNumber num}
    (lsys : list N) (options : turtle_options num)
    (pre : list (segment num)) (s s' : segment num) (post : list (segment num)) :
  ~ In 0x5D%N lsys ->
  interpret lsys options = pre ++ s :: s' :: post ->
  x1 s' = x2 s /\ y1 s' = y2 s.
Proof.
  intros Hnopop. unfold interpret. rewrite interpret_loop_fold.
  set (stepLen := default (lit 10) (step options)).
  set (angleRad := to_radians (default (lit 25) (angleDeg options))).
  intros Heq.
  assert (Hinv : chain_inv
            (fold_left (loop_step stepLen angleRad) (symbols lsys)
               (LoopState (lit 0) (lit 0) initial_heading [] []))).
  { apply (loop_invariant stepLen angleRad (fun ch => ch <> str "]")).
    - intros st ch. apply chain_inv_step.
    - apply Forall_forall. intros ch Hch ->. apply Hnopop.
      apply list_elem_of_In in Hch.
      apply (symbols_In lsys (str "]")); [exact Hch | now left].
    - split; cbn.
      + intros p a b q E. now destruct p.
      + intros p a E. now destruct p. }
  destruct Hinv as (Hchain & _). exact (Hchain pre s s' post Heq).
Qed.

Lemma interpret_polyline_witness :
  let segs := interpret (num := term) (str "F+F")
                (TurtleOptions (Some (TLit 1)) (Some (TLit 90))) in
  x1 (nth 1 segs (Segment TPi TPi TPi TPi)) = x2 (nth 0 segs (Segment TPi TPi TPi TPi))
  /\ y1 (nth 1 segs (Segment TPi TPi TPi TPi)) = y2 (nth 0 segs (Segment TPi TPi TPi TPi)).
Proof.
  cbv zeta.
  apply (interpret_polyline (str "F+F")
           (TurtleOptions (Some (TLit 1)) (Some (TLit 90))) [] _ _ []).
  - intros Hin. vm_compute in Hin. intuition discriminate.
  - reflexivity.
Defined.

(** X13. Every segment is one step long along a heading the turtle can
    have: its end is its start plus (step cos h, step sin h) for a
    heading [h] obtained from -pi/2 by adding and subtracting the angle. *)
Theorem interpret_segments_one_step {num : Type} `{JsNumber num}
    (lsys : list N) (options : turtle_options num) (s : segment num) :
  In s (interpret lsys options) ->
  one_step (default (lit 10) (step options))
    (to_radians (default (lit 25) (angleDeg options))) s.
Proof.
  unfold interpret. rewrite interpret_loop_fold.
  set (stepLen := default (lit 10) (step options)).
  set (angleRad := to_radians (default (lit 25) (angleDeg options))).
  intros Hs.
  assert (Hinv : heading_inv stepLen angleRad
            (fold_left (loop_step stepLen angleRad) (symbols lsys)
               (LoopState (lit 0) (lit 0) initial_heading [] []))).
  { apply (loop_invariant stepLen angleRad (fun _ => True)).
    - intros st ch _. apply heading_inv_step.
    - apply Forall_forall. auto.
    - repeat split; cbn; constructor. }
  destruct Hinv as (_ & _ & Hsegs).
  rewrite Forall_forall in Hsegs. apply Hsegs. now apply list_elem_of_In.
Qed.

Lemma interpret_segments_one_step_witness :
  one_step (TLit 1) (to_radians (TLit 90))
    (Segment (TLit 0) (TLit 0)
       (TAdd (TLit 0) (TMul (TLit 1) (TCos initial_heading)))
       (TAdd (TLit 0) (TMul (TLit 1) (TSin initial_heading)))).
Proof.
  apply (interpret_segments_one_step (str "F-F")
           (TurtleOptions (Some (TLit 1)) (Some (TLit 90)))).
  left. reflexivity.
Defined.

Section TurtleCommands.

Context {num : Type} `{JsNumber num}.

Variables stepLen angleRad : num.

Lemma is_sym_unit (c k : N) (l : string) :
  str l = [k] -> is_sym [c] l = (c =? k)%N.
Proof.
  intros Hl. unfold is_sym. rewrite Hl. apply eq_true_iff_eq.
  rewrite bool_decide_eq_true, N.eqb_eq. split; [now intros [= ->] | now intros ->].
Qed.

Lemma is_sym_pair (c d : N) (l : string) (k : N) :
  str l = [k] -> is_sym [c; d] l = false.
Proof.
  intros Hl. unfold is_sym. rewrite Hl. now apply bool_decide_eq_false_2.
Qed.

Lemma loop_step_pair (st : loop_state num) (c d : N) :
  loop_step stepLen angleRad st [c; d] = st.
Proof.
  destruct st. unfold loop_step. rewrite draws_pair.
  now rewrite (is_sym_pair c d "+" 0x2B eq_refl), (is_sym_pair c d "-" 0x2D eq_refl),
    (is_sym_pair c d "[" 0x5B eq_refl), (is_sym_pair c d "]" 0x5D eq_refl).
Qed.

Lemma loop_step_inert (st : loop_state num) (c : N) :
  is_command_unit c = false -> loop_step stepLen angleRad st [c] = st.
Proof.
  unfold is_command_unit. rewrite !orb_false_iff.
  intros [[[[Hd Hplus] Hminus] Hopen] Hclose].
  destruct st. unfold loop_step. rewrite draws_unit, Hd.
  rewrite (is_sym_unit c 0x2B "+" eq_refl), (is_sym_unit c 0x2D "-" eq_refl),
    (is_sym_unit c 0x5B "[" eq_refl), (is_sym_unit c 0x5D "]" eq_refl).
  now rewrite Hplus, Hminus, Hopen, Hclose.
Qed.

Lemma command_not_surrogate (c : N) :
  is_command_unit c = true -> is_surrogate c = false.
Proof.
  unfold is_command_unit, is_drawing_unit.
  rewrite !orb_true_iff, !N.eqb_eq.
  intros [[[[[[->| ->]| ->]| ->]| ->]| ->]| ->]; reflexivity.
Qed.

Lemma commands_bmp (s : list N) : bmp (List.filter is_command_unit s).
Proof.
  unfold bmp. apply forallb_forall. intros c Hc.
  apply filter_In in Hc as [_ Hc]. now rewrite command_not_surrogate.
Qed.

(** The loop sees the command characters only. *)
Lemma fold_symbols_commands (s : list N) :
  forall st,
  fold_left (loop_step stepLen angleRad) (symbols s) st
  = fold_left (loop_step stepLen angleRad)
      (map (fun c => [c]) (List.filter is_command_unit s)) st.
Proof.
  induction s as [| c | c d s IH1 IH2] using symbols_ind; intros st.
  - reflexivity.
  - cbn [symbols List.filter]. destruct (is_command_unit c) eqn:Hc; [reflexivity|].
    cbn [map fold_left]. now rewrite loop_step_inert.
  - rewrite symbols_cons_cons.
    destruct (is_high_surrogate c && is_low_surrogate d) eqn:Hpair.
    + apply andb_true_iff in Hpair as [Hc Hd].
      cbn [fold_left]. rewrite loop_step_pair, IH1.
      cbn [List.filter].
      destruct (is_command_unit c) eqn:Ec.
      { apply command_not_surrogate in Ec.
        rewrite (high_is_surrogate c Hc) in Ec. discriminate. }
      destruct (is_command_unit d) eqn:Ed.
      { apply command_not_surrogate in Ed.
        rewrite (low_is_surrogate d Hd) in Ed. discriminate. }
      reflexivity.
    + cbn [fold_left]. rewrite IH2.
      change (List.filter is_command_unit (c :: d :: s))
        with (if is_command_unit c
              then c :: List.filter is_command_unit (d :: s)
              else List.filter is_command_unit (d :: s)).
      destruct (is_command_unit c) eqn:Ec; [reflexivity|].
      now rewrite loop_step_inert.
Qed.

Lemma interpret_loop_commands (s : list N) (x y theta : num)
    (stack : list (saved num)) (segs : list (segment num)) :
  interpret_loop stepLen angleRad (symbols s) x y theta stack segs
  = ls_segments
      (fold_left (loop_step stepLen angleRad)
         (map (fun c => [c]) (List.filter is_command_unit s))
         (LoopState x y theta stack segs)).
Proof. now rewrite interpret_loop_fold, fold_symbols_commands. Qed.

(** A turn on a character that is no bracket leaves the stack alone, and
    what it does to the position, the heading and the segments does not
    depend on the stack. *)
Lemma loop_step_no_bracket (c : N) (x y theta : num) :
  c <> 0x5B%N -> c <> 0x5D%N ->
  exists x' y' theta' out,
    forall stack segs,
      loop_step stepLen angleRad (LoopState x y theta stack segs) [c]
      = LoopState x' y' theta' stack (segs ++ out).
Proof.
  intros Hopen Hclose. apply N.eqb_neq in Hopen, Hclose.
  unfold loop_step.
  rewrite (is_sym_unit c 0x2B "+" eq_refl), (is_sym_unit c 0x2D "-" eq_refl),
    (is_sym_unit c 0x5B "[" eq_refl), (is_sym_unit c 0x5D "]" eq_refl).
  rewrite Hopen, Hclose.
  destruct (draws [c]); [do 4 eexists; intros; reflexivity|].
  destruct (c =? 43)%N; [do 3 eexists; exists []; intros; now rewrite app_nil_r|].
  destruct (c =? 45)%N; do 3 eexists; exists []; intros; now rewrite app_nil_r.
Qed.

(** Frame rule for the stack: a stretch of input that never pops below
    its starting depth runs the same on top of any deeper stack. *)
Lemma fold_units_frame (u : list N) :
  forall (extra : list (saved num)) (d' : nat),
  bracket_depth (length extra) u = Some d' ->
  forall x y theta base segs,
  let st := fold_left (loop_step stepLen angleRad) (map (fun c => [c]) u)
              (LoopState x y theta extra []) in
  fold_left (loop_step stepLen angleRad) (map (fun c => [c]) u)
    (LoopState x y theta (base ++ extra) segs)
  = LoopState (ls_x st) (ls_y st) (ls_theta st) (base ++ ls_stack st)
      (segs ++ ls_segments st)
  /\ length (ls_stack st) = d'.
Proof.
  induction u as [|c u IH]; intros extra d' Hdepth x y theta base segs; cbv zeta.
  - cbn in *. injection Hdepth as <-. now rewrite app_nil_r.
  - cbn [bracket_depth] in Hdepth. cbn [map fold_left].
    destruct (N.eqb_spec c 0x5B) as [->|Hopen].
    { change (loop_step stepLen angleRad (LoopState x y theta (base ++ extra) segs) [0x5B%N])
        with (LoopState x y theta ((base ++ extra) ++ [Saved x y theta]) segs).
      change (loop_step stepLen angleRad (LoopState x y theta extra []) [0x5B%N])
        with (LoopState x y theta (extra ++ [Saved x y theta]) []).
      rewrite <- app_assoc. apply IH.
      rewrite length_app. cbn [length]. now rewrite Nat.add_1_r. }
    destruct (N.eqb_spec c 0x5D) as [->|Hclose].
    { destruct extra as [|v e _] using rev_ind; [discriminate|].
      rewrite length_app in Hdepth. cbn [length] in Hdepth.
      rewrite Nat.add_1_r in Hdepth.
      assert (Hbig : loop_step stepLen angleRad
                       (LoopState x y theta (base ++ e ++ [v]) segs) [0x5D%N]
                     = LoopState (saved_x v) (saved_y v) (saved_theta v) (base ++ e) segs).
      { unfold loop_step. change (draws [0x5D%N]) with false.
        change (is_sym [0x5D%N] "+") with false. change (is_sym [0x5D%N] "-") with false.
        change (is_sym [0x5D%N] "[") with false. change (is_sym [0x5D%N] "]") with true.
        cbv iota. now rewrite app_assoc, array_pop_snoc. }
      assert (Hsmall : loop_step stepLen angleRad
                         (LoopState x y theta (e ++ [v]) []) [0x5D%N]
                       = LoopState (saved_x v) (saved_y v) (saved_theta v) e []).
      { unfold loop_step. change (draws [0x5D%N]) with false.
        change (is_sym [0x5D%N] "+") with false. change (is_sym [0x5D%N] "-") with false.
        change (is_sym [0x5D%N] "[") with false. change (is_sym [0x5D%N] "]") with true.
        cbv iota. now rewrite array_pop_snoc. }
      rewrite Hbig, Hsmall. now apply IH. }
    destruct (loop_step_no_bracket c x y theta Hopen Hclose)
      as (x' & y' & theta' & out & Hstep).
    rewrite !Hstep.
    destruct (IH extra d' Hdepth x' y' theta' base (segs ++ out)) as [Hbig Hlen].
    destruct (IH extra d' Hdepth x' y' theta' [] ([] ++ out)) as [Hsmall _].
    cbv zeta in Hbig, Hsmall, Hlen. cbn [app] in Hsmall |- *. rewrite Hbig, Hsmall.
    cbn [ls_x ls_y ls_theta ls_stack ls_segments app].
    split; [now rewrite app_assoc | exact Hlen].
Qed.

Lemma bracket_depth_commands (s : list N) :
  forall d, bracket_depth d (List.filter is_command_unit s) = bracket_depth d s.
Proof.
  induction s as [|c s IH]; intros d; [reflexivity|].
  cbn [List.filter bracket_depth].
  destruct (is_command_unit c) eqn:Hc.
  - cbn [bracket_depth]. destruct (c =? 91)%N; [apply IH|].
    destruct (c =? 93)%N; [destruct d; [reflexivity | apply IH] | apply IH].
  - unfold is_command_unit in Hc. rewrite !orb_false_iff in Hc.
    destruct Hc as [[_ Hopen] Hclose]. now rewrite Hopen, Hclose.
Qed.

Lemma drawing_commands_count (s : list N) :
  length (List.filter draws (map (fun c => [c]) (List.filter is_command_unit s)))
  = length (List.filter is_drawing_unit s).
Proof.
  induction s as [|c s IH]; [reflexivity|].
  cbn [List.filter]. unfold is_command_unit at 1.
  destruct (is_drawing_unit c) eqn:Hd.
  - cbn [orb map List.filter]. rewrite draws_unit, Hd. cbn [length]. now rewrite IH.
  - cbn [orb].
    destruct ((c =? 43) || (c =? 45) || (c =? 91) || (c =? 93))%N; [|exact IH].
    cbn [map List.filter]. now rewrite draws_unit, Hd.
Qed.

End TurtleCommands.

(** X14. [interpret] reads the seven command characters only: deleting
    every other character from the input (a surrogate, paired or lone,
    included) does not change the segments. *)
Theorem interpret_reads_commands_only {num : Type} `{JsNumber num}
    (lsys : list N) (options : turtle_options num) :
  interpret lsys options = interpret (List.filter is_command_unit lsys) options.
Proof.
  unfold interpret. rewrite interpret_loop_commands, interpret_loop_fold.
  now rewrite (symbols_bmp _ (commands_bmp lsys)).
Qed.

(** X12. A balanced branch does not disturb what follows it: the segments
    of [pre \[ w \] post] are those of [pre], then as many segments as [w]
    has drawing characters, then exactly the segments that [post]
    contributes when the branch is left out. *)
Theorem interpret_balanced_branch {num : Type} `{JsNumber num}
    (pre w post : list N) (options : turtle_options num) :
  balanced w ->
  exists branch rest,
    interpret (pre ++ str "[" ++ w ++ str "]" ++ post) options
    = interpret pre options ++ branch ++ rest
    /\ interpret (pre ++ post) options = interpret pre options ++ rest
    /\ length branch = length (List.filter is_drawing_unit w).
Proof.
  intros Hbal. unfold interpret.
  set (stepLen := default (lit 10) (step options)).
  set (angleRad := to_radians (default (lit 25) (angleDeg options))).
  rewrite !interpret_loop_commands.
  rewrite !List.filter_app, !map_app, !fold_left_app.
  change (List.filter is_command_unit (str "[")) with [0x5B%N].
  change (List.filter is_command_unit (str "]")) with [0x5D%N].
  destruct (fold_left (loop_step stepLen angleRad)
              (map (fun c => [c]) (List.filter is_command_unit pre))
              (LoopState (lit 0) (lit 0) initial_heading [] []))
    as [xp yp thp sp segp].
  cbn [map fold_left ls_segments].
  change (loop_step stepLen angleRad (LoopState xp yp thp sp segp) [0x5B%N])
    with (LoopState xp yp thp (sp ++ [Saved xp yp thp]) segp).
  assert (Hdepth : bracket_depth (length (@nil (saved num)))
                     (List.filter is_command_unit w) = Some 0%nat)
    by (rewrite bracket_depth_commands; exact Hbal).
  destruct (fold_units_frame stepLen angleRad _ [] 0%nat Hdepth xp yp thp
              (sp ++ [Saved xp yp thp]) segp) as [Hrun Hlen].
  cbv zeta in Hrun, Hlen. rewrite app_nil_r in Hrun. rewrite Hrun.
  set (stw := fold_left (loop_step stepLen angleRad)
                (map (fun c => [c]) (List.filter is_command_unit w))
                (LoopState xp yp thp [] [])) in *.
  destruct (ls_stack stw) as [|? ?]; [|discriminate]. rewrite app_nil_r.
  assert (Hpop : loop_step stepLen angleRad
                   (LoopState (ls_x stw) (ls_y stw) (ls_theta stw)
                      (sp ++ [Saved xp yp thp]) (segp ++ ls_segments stw)) [0x5D%N]
                 = LoopState xp yp thp sp (segp ++ ls_segments stw)).
  { unfold loop_step. change (draws [0x5D%N]) with false.
    change (is_sym [0x5D%N] "+") with false. change (is_sym [0x5D%N] "-") with false.
    change (is_sym [0x5D%N] "[") with false. change (is_sym [0x5D%N] "]") with true.
    cbv iota. now rewrite array_pop_snoc. }
  rewrite Hpop.
  rewrite (fold_loop_step_acc stepLen angleRad _ xp yp thp sp (segp ++ ls_segments stw)).
  rewrite (fold_loop_step_acc stepLen angleRad _ xp yp thp sp segp).
  cbv zeta. cbn [ls_segments].
  exists (ls_segments stw). eexists. split; [|split].
  - now rewrite <- app_assoc.
  - reflexivity.
  - subst stw. rewrite <- interpret_loop_fold, interpret_loop_length.
    cbn [length]. apply drawing_commands_count.
Qed.

Lemma interpret_balanced_branch_witness :
  exists branch rest,
    interpret (num := term) (str "F" ++ str "[" ++ str "+F" ++ str "]" ++ str "F")
      (TurtleOptions (Some (TLit 1)) (Some (TLit 90)))
    = interpret (str "F") (TurtleOptions (Some (TLit 1)) (Some (TLit 90)))
        ++ branch ++ rest
    /\ interpret (str "F" ++ str "F") (TurtleOptions (Some (TLit 1)) (Some (TLit 90)))
       = interpret (str "F") (TurtleOptions (Some (TLit 1)) (Some (TLit 90))) ++ rest
    /\ length branch = length (List.filter is_drawing_unit (str "+F")).
Proof.
  apply (interpret_balanced_branch (str "F") (str "+F") (str "F")
           (TurtleOptions (Some (TLit 1)) (Some (TLit 90)))).
  reflexivity.
Defined.

(** ** Further properties of the animation scheduler *)

Section AnimationMore.

Context {num : Type}.

Lemma traced_app (a b : list (canvas_op num)) : traced (a ++ b) = traced a ++ traced b.
Proof. apply List.filter_app. Qed.

Lemma traced_segments (segs : list (segment num)) :
  traced (flat_map trace_segment segs) = flat_map trace_segment segs.
Proof.
  induction segs as [|s segs IH]; [reflexivity|].
  cbn [flat_map]. rewrite traced_app, IH. reflexivity.
Qed.

Lemma fold_trace_segments (segs : list (segment num)) (path : list (canvas_op num)) :
  fold_left (fun path s => path ++ trace_segment s) segs path
  = path ++ flat_map trace_segment segs.
Proof.
  revert path; induction segs as [|s segs IH]; intros path; cbn [fold_left flat_map].
  - now rewrite app_nil_r.
  - rewrite IH. now rewrite <- app_assoc.
Qed.

Lemma drawSegments_traced (segs : list (segment num)) (w : world num) :
  traced (canvas (drawSegments segs w))
  = traced (canvas w) ++ flat_map trace_segment segs.
Proof.
  unfold drawSegments. cbn [canvas]. rewrite fold_trace_segments.
  rewrite !traced_app, traced_segments. cbn. now rewrite app_nil_r.
Qed.

(** Whether a tick goes ahead depends on the handles and on
    [currentAnim] only. *)
Lemma halted_ext (w w' : world num) :
  handles w' = handles w -> currentAnim w' = currentAnim w -> halted w' = halted w.
Proof. unfold halted. now intros -> ->. Qed.

Lemma world_eta (w : world num) :
  w = World (handles w) (currentAnim w) (pending w) (canvas w).
Proof. now destruct w. Qed.

Lemma drain_succ (n : nat) (w : world num) : drain (S n) w = drain n (fire 0 w).
Proof. unfold drain. apply Nat.iter_succ_r. Qed.

(** The current handle, when there is one, exists and is not cancelled. *)
Definition current_live (w : world num) : Prop :=
  forall h, currentAnim w = Some h -> handles w !! h = Some false.

Lemma current_live_halted (w : world num) :
  current_live w ->
  halted w = match currentAnim w with None => true | Some _ => false end.
Proof.
  unfold halted. intros Hw. destruct (currentAnim w) as [h|] eqn:E; [|reflexivity].
  now rewrite (Hw h E).
Qed.

Lemma frame_current_live (c : frame_closure num) (w : world num) :
  current_live w -> current_live (frame c w).
Proof.
  intros Hw h. destruct (halted w) eqn:Hh.
  - rewrite frame_halted by exact Hh. apply Hw.
  - destruct (frame_live c w Hh) as (_ & _ & Hcur & Hhs). cbv zeta in Hcur.
    rewrite Hcur, Hhs. destruct (_ <? _)%nat; [apply Hw | discriminate].
Qed.

Lemma react_current_live (w : world num) (e : event num) :
  current_live w -> current_live (react w e).
Proof.
  intros Hw. destruct e as [segs opts| |k]; cbn [react].
  - unfold drawSegmentsAnimated. apply frame_current_live.
    intros h. cbn [currentAnim handles]. intros [= <-].
    rewrite lookup_app_r by lia. now rewrite Nat.sub_diag.
  - unfold stopDrawingAnimation. destruct (currentAnim w); intros h; discriminate.
  - unfold fire. destruct (pending w !! k) as [[d c|c]|]; [| |exact Hw].
    + exact Hw.
    + apply frame_current_live. exact Hw.
Qed.

Lemma run_current_live (events : list (event num)) : current_live (run events).
Proof.
  unfold run.
  assert (Hgen : forall w, current_live w -> current_live (fold_left react events w)).
  { induction events as [|e events IH]; intros w Hw; [exact Hw|].
    cbn [fold_left]. apply IH. now apply react_current_live. }
  apply Hgen. intros h. discriminate.
Qed.

(** With no animation current, firing a callback traces nothing. *)
Lemma fire_without_current (k : nat) (w : world num) :
  currentAnim w = None ->
  currentAnim (fire k w) = None /\ traced (canvas (fire k w)) = traced (canvas w).
Proof.
  intros Hcur. unfold fire. destruct (pending w !! k) as [[d c|c]|]; auto.
  rewrite frame_halted by (unfold halted; cbn [currentAnim]; now rewrite Hcur).
  cbn [currentAnim canvas]. rewrite traced_app. cbn. now rewrite app_nil_r.
Qed.

(** An animation alone on the page runs to its end. *)
Lemma frame_drains (m : nat) :
  forall (c : frame_closure num) (w : world num),
  (length (fc_segments c) - fc_i c <= m)%nat ->
  halted w = false -> pending w = [] -> (1 <= fc_batch c)%Z ->
  exists n,
    pending (drain n (frame c w)) = []
    /\ currentAnim (drain n (frame c w)) = None
    /\ traced (canvas (drain n (frame c w)))
       = traced (canvas w)
           ++ flat_map trace_segment (drop (fc_i c) (fc_segments c)).
Proof.
  induction m as [|m IH]; intros c w Hm Hlive Hpend Hbatch;
    destruct (frame_live c w Hlive) as (Hcanvas & Hpending & Hcur & Hhs);
    cbv zeta in Hcanvas, Hpending, Hcur;
    set (nb := Nat.min (Z.to_nat (fc_batch c)) (length (fc_segments c) - fc_i c)) in *;
    destruct (fc_i c + nb <? length (fc_segments c))%nat eqn:Hmore.
  - apply Nat.ltb_lt in Hmore. lia.
  - apply Nat.ltb_ge in Hmore. exists 0%nat. change (drain 0 (frame c w)) with (frame c w).
    rewrite Hpending, Hpend, Hcur, Hcanvas. repeat split.
    rewrite !traced_app, traced_segments. cbn. rewrite app_nil_r.
    rewrite firstn_all2; [reflexivity|]. rewrite length_skipn. lia.
  - apply Nat.ltb_lt in Hmore.
    set (c' := FrameClosure (fc_segments c) (fc_batch c) (fc_delayMs c) (fc_i c + nb)) in *.
    set (w2 := World (handles w) (currentAnim w) []
                 (canvas w ++ [BeginPath]
                    ++ flat_map trace_segment (take nb (drop (fc_i c) (fc_segments c)))
                    ++ [Stroke] ++ [])).
    assert (Hw2 : halted w2 = false) by (rewrite <- Hlive; now apply halted_ext).
    destruct (IH c' w2) as (n & Hp & Hc & Ht); [cbn; lia | exact Hw2 | reflexivity | exact Hbatch |].
    assert (Hframe : frame c w
                     = World (handles w) (currentAnim w)
                         [if (0 <? fc_delayMs c)%Z then Timeout (fc_delayMs c) c'
                          else AnimationFrame c']
                         (canvas w2)).
    { rewrite (world_eta (frame c w)), Hhs, Hcur, Hpending, Hcanvas, Hpend.
      reflexivity. }
    assert (Htraced : traced (canvas w2) ++ flat_map trace_segment (drop (fc_i c') (fc_segments c'))
                      = traced (canvas w)
                          ++ flat_map trace_segment (drop (fc_i c) (fc_segments c))).
    { cbn [canvas w2 fc_i fc_segments c']. rewrite !traced_app, traced_segments.
      cbn. rewrite app_nil_r, <- app_assoc. f_equal.
      rewrite <- flat_map_app. f_equal.
      rewrite <- drop_drop. apply take_drop. }
    destruct (0 <? fc_delayMs c)%Z.
    + exists (S (S n)). rewrite !drain_succ, Hframe.
      change (fire 0 (fire 0 (World (handles w) (currentAnim w)
                                [Timeout (fc_delayMs c) c'] (canvas w2))))
        with (frame c' w2).
      now rewrite Hp, Hc, Ht, Htraced.
    + exists (S n). rewrite drain_succ, Hframe.
      change (fire 0 (World (handles w) (currentAnim w) [AnimationFrame c'] (canvas w2)))
        with (frame c' w2).
      now rewrite Hp, Hc, Ht, Htraced.
  - apply Nat.ltb_ge in Hmore. exists 0%nat. change (drain 0 (frame c w)) with (frame c w).
    rewrite Hpending, Hpend, Hcur, Hcanvas. repeat split.
    rewrite !traced_app, traced_segments. cbn. rewrite app_nil_r.
    rewrite firstn_all2; [reflexivity|]. rewrite length_skipn. lia.
Qed.

(** A tick with a batch size of zero or less reschedules itself as it
    is. *)
Definition stalled (c : frame_closure num) (trace : list (canvas_op num))
    (w : world num) : Prop :=
  halted w = false /\ traced (canvas w) = trace
  /\ (pending w = [AnimationFrame c]
      \/ exists d, pending w = [Timeout d c]).

Lemma frame_stalls (c : frame_closure num) (w : world num) :
  (fc_batch c <= 0)%Z -> (fc_i c < length (fc_segments c))%nat ->
  halted w = false -> pending w = [] ->
  stalled c (traced (canvas w)) (frame c w).
Proof.
  intros Hbatch Hi Hlive Hpend.
  destruct (frame_live c w Hlive) as (Hcanvas & Hpending & Hcur & Hhs).
  cbv zeta in Hcanvas, Hpending, Hcur.
  replace (Z.to_nat (fc_batch c)) with 0%nat in * by lia.
  cbn [Nat.min] in *. rewrite Nat.add_0_r in *.
  apply Nat.ltb_lt in Hi. rewrite Hi in *.
  assert (Hc : FrameClosure (fc_segments c) (fc_batch c) (fc_delayMs c) (fc_i c) = c)
    by now destruct c.
  rewrite Hc in Hpending. repeat split.
  - rewrite <- Hlive. now apply halted_ext.
  - rewrite Hcanvas, !traced_app. cbn. now rewrite app_nil_r.
  - rewrite Hpending, Hpend. cbn [app].
    destruct (0 <? fc_delayMs c)%Z; [right; eauto | now left].
Qed.

Lemma fire_stalled (c : frame_closure num) (trace : list (canvas_op num))
    (w : world num) :
  (fc_batch c <= 0)%Z -> (fc_i c < length (fc_segments c))%nat ->
  stalled c trace w -> stalled c trace (fire 0 w).
Proof.
  intros Hbatch Hi (Hlive & Htrace & [Hpend|[d Hpend]]).
  - unfold fire. rewrite Hpend. cbn [lookup list_lookup delete list_delete].
    rewrite <- Htrace.
    change (traced (canvas w))
      with (traced (canvas (World (handles w) (currentAnim w) [] (canvas w)))).
    apply frame_stalls; auto.
  - unfold fire. rewrite Hpend. cbn [lookup list_lookup delete list_delete app].
    repeat split; auto.
Qed.

End AnimationMore.

(** X15. An animation alone on the page runs to its end: with a batch
    size of at least 1 and no other callback waiting, some number of ticks
    empties the queue, releases the handle, and has traced exactly the
    segments, each once and in order, as [drawSegments] does in one
    stroke. *)
Theorem animation_completes {num : Type} (segments : list (segment num))
    (options : anim_options) (w : world num) :
  pending w = [] ->
  (1 <= default 2 (opt_batch options))%Z ->
  exists n,
    let w' := drain n (drawSegmentsAnimated segments options w) in
    pending w' = [] /\ currentAnim w' = None
    /\ traced (canvas w') = traced (canvas w) ++ flat_map trace_segment segments
    /\ traced (canvas w') = traced (canvas (drawSegments segments w)).
Proof.
  intros Hpend Hbatch. unfold drawSegmentsAnimated.
  set (c := FrameClosure segments (default 2%Z (opt_batch options))
              (default 0%Z (opt_delayMs options)) 0).
  set (hs := match currentAnim w with
             | Some h => <[h:=true]> (handles w)
             | None => handles w
             end).
  set (w1 := World (hs ++ [false]) (Some (length hs)) (pending w)
               (canvas w ++ [ClearSurface; Save; SetPen])).
  destruct (frame_drains (length segments) c w1) as (n & Hp & Hc & Ht).
  - cbn. lia.
  - unfold halted. cbn [currentAnim handles w1].
    rewrite lookup_app_r by lia. now rewrite Nat.sub_diag.
  - exact Hpend.
  - exact Hbatch.
  - exists n. cbv zeta. rewrite Hp, Hc, Ht, drawSegments_traced.
    cbn [canvas w1 fc_i fc_segments c drop]. rewrite traced_app. cbn.
    rewrite app_nil_r. auto.
Qed.

Lemma animation_completes_witness :
  exists n,
    let w' := drain n (drawSegmentsAnimated
                         [Segment 0%Z 0%Z 0%Z 1%Z; Segment 0%Z 1%Z 1%Z 1%Z;
                          Segment 1%Z 1%Z 1%Z 2%Z]
                         (AnimOptions (Some 2%Z) (Some 10%Z)) initial_world) in
    pending w' = [] /\ currentAnim w' = None
    /\ traced (canvas w')
       = traced (canvas initial_world)
           ++ flat_map trace_segment
                [Segment 0%Z 0%Z 0%Z 1%Z; Segment 0%Z 1%Z 1%Z 1%Z;
                 Segment 1%Z 1%Z 1%Z 2%Z]
    /\ traced (canvas w')
       = traced (canvas (drawSegments
                           [Segment 0%Z 0%Z 0%Z 1%Z; Segment 0%Z 1%Z 1%Z 1%Z;
                            Segment 1%Z 1%Z 1%Z 2%Z] initial_world)).
Proof.
  apply (animation_completes
           [Segment 0%Z 0%Z 0%Z 1%Z; Segment 0%Z 1%Z 1%Z 1%Z; Segment 1%Z 1%Z 1%Z 2%Z]
           (AnimOptions (Some 2%Z) (Some 10%Z)) initial_world).
  - reflexivity.
  - cbn. lia.
Defined.

(** X16. Stopping does halt the drawing as long as no animation is
    started afterwards: whichever waiting callbacks fire after
    [stopDrawingAnimation], no segment is traced and [currentAnim] stays
    null. *)
Theorem stop_halts_drawing {num : Type} (w : world num) (ks : list nat) :
  let w' := fold_left (fun w k => fire k w) ks (stopDrawingAnimation w) in
  currentAnim w' = None /\ traced (canvas w') = traced (canvas w).
Proof.
  cbv zeta.
  assert (Hgen : forall v : world num,
            currentAnim v = None ->
            currentAnim (fold_left (fun w k => fire k w) ks v) = None
            /\ traced (canvas (fold_left (fun w k => fire k w) ks v))
               = traced (canvas v)).
  { induction ks as [|k ks IH]; intros v Hv; [auto|].
    cbn [fold_left]. destruct (fire_without_current k v Hv) as [Hcur Htr].
    destruct (IH (fire k v) Hcur) as [Hcur' Htr']. split; [exact Hcur'|].
    now rewrite Htr'. }
  destruct (Hgen (stopDrawingAnimation w)) as [Hcur Htr].
  - unfold stopDrawingAnimation. now destruct (currentAnim w).
  - split; [exact Hcur|]. rewrite Htr.
    unfold stopDrawingAnimation. now destruct (currentAnim w).
Qed.

(** X17. After any sequence of starts, stops and ticks, the current
    handle, if there is one, is not cancelled: both places that set the
    flag clear or replace [currentAnim] at once.  So the test
    [currentAnim.cancelled] of [frame] never succeeds, and a tick stops
    exactly when [currentAnim] is null. *)
Theorem current_handle_never_cancelled {num : Type} (events : list (event num)) :
  (forall h, currentAnim (run events) = Some h ->
             handles (run events) !! h = Some false)
  /\ halted (run events)
     = match currentAnim (run events) with None => true | Some _ => false end.
Proof.
  split.
  - apply run_current_live.
  - apply current_live_halted, run_current_live.
Qed.

(** X18. A batch size of zero or less never ends: when segments remain
    and nothing else is waiting, however many ticks run, the callback is
    still waiting, the animation is still current, and no segment has been
    traced. *)
Theorem nonpositive_batch_never_ends {num : Type} (c : frame_closure num)
    (w : world num) (n : nat) :
  (fc_batch c <= 0)%Z -> (fc_i c < length (fc_segments c))%nat ->
  halted w = false -> pending w = [] ->
  let w' := drain n (frame c w) in
  pending w' <> [] /\ halted w' = false
  /\ traced (canvas w') = traced (canvas w).
Proof.
  intros Hbatch Hi Hlive Hpend. cbv zeta.
  assert (Hst : stalled c (traced (canvas w)) (drain n (frame c w))).
  { induction n as [|n IH].
    - now apply frame_stalls.
    - change (drain (S n) (frame c w)) with (fire 0 (drain n (frame c w))).
      now apply fire_stalled. }
  destruct Hst as (Hl & Ht & Hp). repeat split; auto.
  destruct Hp as [->|[d ->]]; discriminate.
Qed.

Lemma nonpositive_batch_never_ends_witness :
  let c := FrameClosure [Segment 0%Z 0%Z 0%Z 1%Z] 0 0 0 in
  let w := World [false] (Some 0%nat) [] [] in
  pending (drain 5 (frame c w)) <> [] /\ halted (drain 5 (frame c w)) = false
  /\ traced (canvas (drain 5 (frame c w))) = traced (canvas w).
Proof.
  cbv zeta.
  apply (nonpositive_batch_never_ends
           (FrameClosure [Segment 0%Z 0%Z 0%Z 1%Z] 0 0 0)
           (World [false] (Some 0%nat) [] []) 5).
  - cbn. lia.
  - cbn. lia.
  - reflexivity.
  - reflexivity.
Defined.

(** ** Properties of the segment pipeline *)

Lemma rewrite_n_empty (n : nat) (s : list N) : rewrite_n ∅ n s = s.
Proof.
  induction n as [|n IH]; [reflexivity|].
  rewrite rewrite_n_succ, IH. apply rewrite_once_empty.
Qed.

Lemma filter_length_le {A} (f : A -> bool) (l : list A) :
  (length (List.filter f l) <= length l)%nat.
Proof.
  induction l as [|a l IH]; [cbn; lia|].
  cbn [List.filter]. destruct (f a); cbn [length]; lia.
Qed.



